(** * Reed-Solomon algebra: GF(2^8) field elements and polynomials

    A shallow embedding of [src/ff.py] (class [GF256int]) and
    [src/polynomial.py] (class [Polynomial]), with the properties of the
    specification stated and settled against it.  The first part holds
    the model of the two modules, the second the notions the statements
    are written with, the third the lemmas and theorems. *)

From Stdlib Require Import Ring.
From stdpp Require Import base list numbers strings.

Local Open Scope Z_scope.

(** * Part 1: the model *)

(** ** Python exceptions, results and indexing *)

(** The exceptions the two modules can raise. *)
Inductive exn : Set :=
  | ValueError
  | ZeroDivisionError
  | TypeError
  | IndexError.

(** A call either returns a value or raises. *)
Inductive result (A : Type) : Type :=
  | Ok (a : A)
  | Raise (e : exn).
Arguments Ok {A} a.
Arguments Raise {A} e.

Global Instance exn_eq_dec : EqDecision exn.
Proof. solve_decision. Defined.
Global Instance result_eq_dec {A} `{EqDecision A} : EqDecision (result A).
Proof. solve_decision. Defined.

Global Instance result_ret : MRet result := fun A a => Ok a.
Global Instance result_bind : MBind result := fun A B f m =>
  match m with
  | Ok a => f a
  | Raise e => Raise e
  end.
Global Instance result_fmap : FMap result := fun A B f m =>
  match m with
  | Ok a => Ok (f a)
  | Raise e => Raise e
  end.

(** [seq[i]] with Python's index rule: a negative index counts from the
    end, anything outside [-len, len) raises IndexError. *)
Definition py_index {A} (l : list A) (i : Z) : result A :=
  let n := Z.of_nat (length l) in
  let j := if i <? 0 then i + n else i in
  if (j <? 0) || (n <=? j) then Raise IndexError
  else match l !! Z.to_nat j with
       | Some a => Ok a
       | None => Raise IndexError
       end.

(** [seq[i] = v] on a list, same index rule. *)
Definition py_setitem {A} (l : list A) (i : Z) (v : A) : result (list A) :=
  let n := Z.of_nat (length l) in
  let j := if i <? 0 then i + n else i in
  if (j <? 0) || (n <=? j) then Raise IndexError
  else Ok (<[Z.to_nat j := v]> l).

(** ** ff.py: the field GF(2^8) *)

(** Exponent table for 3, a generator of GF(256). *)
Definition exptable : list Z :=
  [
   1; 3; 5; 15; 17; 51; 85; 255; 26; 46; 114; 150; 161; 248;
   19; 53; 95; 225; 56; 72; 216; 115; 149; 164; 247; 2; 6; 10;
   30; 34; 102; 170; 229; 52; 92; 228; 55; 89; 235; 38; 106; 190;
   217; 112; 144; 171; 230; 49; 83; 245; 4; 12; 20; 60; 68; 204;
   79; 209; 104; 184; 211; 110; 178; 205; 76; 212; 103; 169; 224; 59;
   77; 215; 98; 166; 241; 8; 24; 40; 120; 136; 131; 158; 185; 208;
   107; 189; 220; 127; 129; 152; 179; 206; 73; 219; 118; 154; 181; 196;
   87; 249; 16; 48; 80; 240; 11; 29; 39; 105; 187; 214; 97; 163;
   254; 25; 43; 125; 135; 146; 173; 236; 47; 113; 147; 174; 233; 32;
   96; 160; 251; 22; 58; 78; 210; 109; 183; 194; 93; 231; 50; 86;
   250; 21; 63; 65; 195; 94; 226; 61; 71; 201; 64; 192; 91; 237;
   44; 116; 156; 191; 218; 117; 159; 186; 213; 100; 172; 239; 42; 126;
   130; 157; 188; 223; 122; 142; 137; 128; 155; 182; 193; 88; 232; 35;
   101; 175; 234; 37; 111; 177; 200; 67; 197; 84; 252; 31; 33; 99;
   165; 244; 7; 9; 27; 45; 119; 153; 176; 203; 70; 202; 69; 207;
   74; 222; 121; 139; 134; 145; 168; 227; 62; 66; 198; 81; 243; 14;
   18; 54; 90; 238; 41; 123; 141; 140; 143; 138; 133; 148; 167; 242;
   13; 23; 57; 75; 221; 124; 132; 151; 162; 253; 28; 36; 108; 180;
   199; 82; 246; 1 ].

(** Logarithm table, base 3; the entry for 0 is Python's [None]. *)
Definition logtable : list (option Z) :=
  [
   None; Some 0; Some 25; Some 1; Some 50; Some 2; Some 26; Some 198; Some 75; Some 199;
   Some 27; Some 104; Some 51; Some 238; Some 223; Some 3; Some 100; Some 4; Some 224; Some 14;
   Some 52; Some 141; Some 129; Some 239; Some 76; Some 113; Some 8; Some 200; Some 248; Some 105;
   Some 28; Some 193; Some 125; Some 194; Some 29; Some 181; Some 249; Some 185; Some 39; Some 106;
   Some 77; Some 228; Some 166; Some 114; Some 154; Some 201; Some 9; Some 120; Some 101; Some 47;
   Some 138; Some 5; Some 33; Some 15; Some 225; Some 36; Some 18; Some 240; Some 130; Some 69;
   Some 53; Some 147; Some 218; Some 142; Some 150; Some 143; Some 219; Some 189; Some 54; Some 208;
   Some 206; Some 148; Some 19; Some 92; Some 210; Some 241; Some 64; Some 70; Some 131; Some 56;
   Some 102; Some 221; Some 253; Some 48; Some 191; Some 6; Some 139; Some 98; Some 179; Some 37;
   Some 226; Some 152; Some 34; Some 136; Some 145; Some 16; Some 126; Some 110; Some 72; Some 195;
   Some 163; Some 182; Some 30; Some 66; Some 58; Some 107; Some 40; Some 84; Some 250; Some 133;
   Some 61; Some 186; Some 43; Some 121; Some 10; Some 21; Some 155; Some 159; Some 94; Some 202;
   Some 78; Some 212; Some 172; Some 229; Some 243; Some 115; Some 167; Some 87; Some 175; Some 88;
   Some 168; Some 80; Some 244; Some 234; Some 214; Some 116; Some 79; Some 174; Some 233; Some 213;
   Some 231; Some 230; Some 173; Some 232; Some 44; Some 215; Some 117; Some 122; Some 235; Some 22;
   Some 11; Some 245; Some 89; Some 203; Some 95; Some 176; Some 156; Some 169; Some 81; Some 160;
   Some 127; Some 12; Some 246; Some 111; Some 23; Some 196; Some 73; Some 236; Some 216; Some 67;
   Some 31; Some 45; Some 164; Some 118; Some 123; Some 183; Some 204; Some 187; Some 62; Some 90;
   Some 251; Some 96; Some 177; Some 134; Some 59; Some 82; Some 161; Some 108; Some 170; Some 85;
   Some 41; Some 157; Some 151; Some 178; Some 135; Some 144; Some 97; Some 190; Some 220; Some 252;
   Some 188; Some 149; Some 207; Some 205; Some 55; Some 63; Some 91; Some 209; Some 83; Some 57;
   Some 132; Some 60; Some 65; Some 162; Some 109; Some 71; Some 20; Some 42; Some 158; Some 93;
   Some 86; Some 242; Some 211; Some 171; Some 68; Some 17; Some 146; Some 217; Some 35; Some 32;
   Some 46; Some 137; Some 180; Some 124; Some 184; Some 38; Some 119; Some 153; Some 227; Some 165;
   Some 103; Some 74; Some 237; Some 222; Some 197; Some 49; Some 254; Some 24; Some 13; Some 99;
   Some 140; Some 128; Some 192; Some 247; Some 112; Some 7 ].

(** The range test of [GF256int.__new__]:
    [if value > 255 or value < 0: raise ValueError]. *)
Definition out_of_field (value : Z) : bool := (255 <? value) || (value <? 0).

(** An instance of [GF256int]: a Python int that passed the range test of
    [__new__]. *)
Record GF256int : Set := MkGF256int {
  to_int : Z;
  in_field : out_of_field to_int = false
}.

(** [GF256int(value)].  The class-level [cache] only memoises the instance
    built for each value (at most 256 of them); on an integer argument a
    cache hit returns the instance that a miss would build, so the
    constructor is modelled by its miss path. *)
Definition GF256int_new (value : Z) : result GF256int :=
  match out_of_field value as b return out_of_field value = b -> result GF256int with
  | true => fun _ => Raise ValueError
  | false => fun H => Ok (MkGF256int value H)
  end eq_refl.

(** [__add__], also bound to [__sub__], [__radd__] and [__rsub__]. *)
Definition GF256int_add (self b : GF256int) : result GF256int :=
  GF256int_new (Z.lxor (to_int self) (to_int b)).
Definition GF256int_sub := GF256int_add.

(** [__neg__]. *)
Definition GF256int_neg (self : GF256int) : GF256int := self.

(** [x + y] on two table entries: an entry that is [None] makes the
    addition raise TypeError. *)
Definition log_plus (x y : option Z) : result Z :=
  match x, y with
  | Some x, Some y => Ok (x + y)
  | _, _ => Raise TypeError
  end.

(** [__mul__], also bound to [__rmul__]. *)
Definition GF256int_mul (self b : GF256int) : result GF256int :=
  if (to_int self =? 0) || (to_int b =? 0) then GF256int_new 0
  else
    x ← py_index logtable (to_int self);
    y ← py_index logtable (to_int b);
    s ← log_plus x y;
    let z := s mod 255 in
    e ← py_index exptable z;
    GF256int_new e.

(** The right operand of [**]: an instance of [GF256int] or a regular
    integer. *)
Inductive power_arg : Set :=
  | PowGF (b : GF256int)
  | PowInt (n : Z).

(** [x * power] for a table entry [x] and a regular integer. *)
Definition log_times (x : option Z) (power : Z) : result Z :=
  match x with
  | Some x => Ok (x * power)
  | None => Raise TypeError
  end.

(** [__pow__]. *)
Definition GF256int_pow (self : GF256int) (power : power_arg) : result GF256int :=
  match power with
  | PowGF _ => Raise TypeError
  | PowInt power =>
      x ← py_index logtable (to_int self);
      s ← log_times x power;
      let z := s mod 255 in
      e ← py_index exptable z;
      GF256int_new e
  end.

(** [self in GF256int.logtable]: tuple membership, by value. *)
Definition in_logtable (self : GF256int) : bool :=
  existsb (fun e => match e with
                    | Some x => x =? to_int self
                    | None => false
                    end) logtable.

(** The statement of [inverse] that ends the call. *)
Inductive inverse_branch : Set :=
  | ZeroCheck       (* raise ZeroDivisionError *)
  | Patch255        (* the patch for GF256int(255) *)
  | FallbackSearch  (* the brute-force loop, or the ValueError after it *)
  | MissingLog      (* ValueError: no log value in table *)
  | TableLookup.    (* exptable[255 - e] *)

(** The brute-force loop of [inverse]:
    [for i in range(1, 256): if (self * GF256int(i)) % 256 == 1: return GF256int(i)],
    over the candidates that remain. *)
Fixpoint inverse_search (self : GF256int) (candidates : list Z) : option (result GF256int) :=
  match candidates with
  | [] => None
  | i :: rest =>
      match GF256int_new i with
      | Raise e => Some (Raise e)
      | Ok gi =>
          match GF256int_mul self gi with
          | Raise e => Some (Raise e)
          | Ok prod =>
              if to_int prod mod 256 =? 1 then Some (Ok gi)
              else inverse_search self rest
          end
      end
  end.

(** [range(1, 256)]. *)
Definition range_1_256 : list Z := map Z.of_nat (seq 1 255).

(** [inverse], together with the branch that produced the outcome. *)
Definition GF256int_inverse_traced (self : GF256int) : inverse_branch * result GF256int :=
  if to_int self =? 0 then (ZeroCheck, Raise ZeroDivisionError)
  else if to_int self =? 255 then
    (Patch255, e ← py_index exptable (255 - 7); GF256int_new e)
  else if negb (in_logtable self) then
    (FallbackSearch,
     match inverse_search self range_1_256 with
     | Some r => r
     | None => Raise ValueError
     end)
  else
    match py_index logtable (to_int self) with
    | Raise e => (TableLookup, Raise e)
    | Ok None => (MissingLog, Raise ValueError)
    | Ok (Some e) =>
        (TableLookup, v ← py_index exptable (255 - e); GF256int_new v)
    end.

Definition GF256int_inverse (self : GF256int) : result GF256int :=
  snd (GF256int_inverse_traced self).

(** [__div__]: [self * GF256int(other).inverse()].  [GF256int(other)] on an
    instance is a cache hit and returns [other] itself. *)
Definition GF256int_div (self other : GF256int) : result GF256int :=
  o ← GF256int_new (to_int other);
  i ← GF256int_inverse o;
  GF256int_mul self i.

(** [__rdiv__]: [self.inverse() * other]. *)
Definition GF256int_rdiv (self other : GF256int) : result GF256int :=
  i ← GF256int_inverse self;
  GF256int_mul i other.

(** The loop of [multiply] (Peasant's algorithm):
    [while b: if b & 1: r = r ^ p; b = b >> 1; p = p << 1;
              if p & 0x100: p = p ^ 0x11b].
    [None] when [fuel] iterations did not finish the loop. *)
Fixpoint multiply_loop (fuel : nat) (p r b : Z) : option Z :=
  if b =? 0 then Some r
  else match fuel with
       | O => None
       | S fuel' =>
           let r := if Z.land b 1 =? 0 then r else Z.lxor r p in
           let b := Z.shiftr b 1 in
           let p := Z.shiftl p 1 in
           let p := if Z.land p 0x100 =? 0 then p else Z.lxor p 0x11b in
           multiply_loop fuel' p r b
       end.

(** [multiply]: the slow reference multiplication. *)
Definition GF256int_multiply (fuel : nat) (self other : GF256int) : option (result GF256int) :=
  let a := to_int self in
  let b := to_int other in
  GF256int_new <$> multiply_loop fuel a 0 b.

Global Instance GF256int_eq_dec : EqDecision GF256int.
Proof.
  intros [x Hx] [y Hy]. destruct (decide (x = y)) as [E|N].
  - left. subst y. f_equal. apply proof_irrel.
  - right. intros E. apply N. by injection E.
Defined.

(** ** The 256 field elements *)

Definition GF0 : GF256int := MkGF256int 0 eq_refl.
Definition GF1 : GF256int := MkGF256int 1 eq_refl.

(** The element with value [n], for [n] below 256. *)
Definition element (n : nat) : GF256int :=
  match GF256int_new (Z.of_nat n) with
  | Ok a => a
  | Raise _ => GF0
  end.

Definition field_elements : list GF256int := map element (seq 0 256).

(** ** The operator [/] on field elements *)

(** The binary special methods bound in the body of [class GF256int(int)],
    by name; any other name is inherited from [int]. *)
Definition GF256int_method (name : string) : option (GF256int -> GF256int -> result GF256int) :=
  if decide (name = "__add__") then Some GF256int_add
  else if decide (name = "__sub__") then Some GF256int_add
  else if decide (name = "__radd__") then Some GF256int_add
  else if decide (name = "__rsub__") then Some GF256int_add
  else if decide (name = "__mul__") then Some GF256int_mul
  else if decide (name = "__rmul__") then Some GF256int_mul
  else if decide (name = "__div__") then Some GF256int_div
  else if decide (name = "__rdiv__") then Some GF256int_rdiv
  else None.

(** What a binary operator can return on two field elements: a field
    element, or the float nearest to a quotient of two integers. *)
Inductive py_value : Set :=
  | FieldElement (v : GF256int)
  | FloatOfQuotient (num den : Z).

(** [int.__truediv__]. *)
Definition int_truediv (a b : Z) : result py_value :=
  if b =? 0 then Raise ZeroDivisionError else Ok (FloatOfQuotient a b).

(** [a / b] on two instances of [GF256int].  The module is Python 3 source
    (it uses f-strings), where the operator [/] calls [__truediv__]: the
    method of the class if it binds one, else the one of [int]. *)
Definition GF256int_truediv_operator (a b : GF256int) : result py_value :=
  match GF256int_method "__truediv__" with
  | Some method => FieldElement <$> method a b
  | None => int_truediv (to_int a) (to_int b)
  end.

(** ** polynomial.py: polynomials over a coefficient type *)

(** What [Polynomial] asks of its coefficients.  The class is written for
    any type with the usual operators; the literals [0] and [1] of the code
    are compared and combined with coefficients, so each coefficient type
    says which of its values they are.  [division] is the test
    [hasattr(divisor_lc, "inverse")]: [inl] holds the method [inverse] of a
    type that has one, [inr] the operator [//] of a type that has not. *)
Class Coeff (R : Type) := {
  coeff_eq_dec :: EqDecision R;
  zero : R;
  one : R;
  add : R -> R -> R;
  sub : R -> R -> R;
  neg : R -> R;
  mul : R -> R -> R;
  division : (R -> result R) + (R -> R -> result R)
}.

(** [int(s)] on the text after the first character of a keyword: an
    optional sign and one or more decimal digits.  (The forms with spaces
    or underscores that [int] also reads are left out: every other text
    raises ValueError here.) *)
Definition digit_value (c : Ascii.ascii) : option Z :=
  let n := Z.of_N (Ascii.N_of_ascii c) in
  if (48 <=? n) && (n <=? 57) then Some (n - 48) else None.

Fixpoint digits_value (acc : Z) (s : string) : option Z :=
  match s with
  | EmptyString => Some acc
  | String c s' =>
      match digit_value c with
      | Some d => digits_value (10 * acc + d) s'
      | None => None
      end
  end.

Definition unsigned_value (s : string) : result Z :=
  match s with
  | EmptyString => Raise ValueError
  | _ => match digits_value 0 s with
         | Some n => Ok n
         | None => Raise ValueError
         end
  end.

Definition py_int (s : string) : result Z :=
  match s with
  | String c s' =>
      if Ascii.eqb c (Ascii.ascii_of_nat 45) then Z.opp <$> unsigned_value s'
      else if Ascii.eqb c (Ascii.ascii_of_nat 43) then unsigned_value s'
      else unsigned_value s
  | EmptyString => Raise ValueError
  end.

(** [s[1:]]. *)
Definition drop_first (s : string) : string :=
  match s with
  | EmptyString => EmptyString
  | String _ s' => s'
  end.

(** [sorted(keys, reverse=True)]: strings in descending order, compared
    character by character. *)
Fixpoint insert_desc (k : string) (sorted : list string) : list string :=
  match sorted with
  | [] => [k]
  | k' :: rest => if String.ltb k' k then k :: sorted else k' :: insert_desc k rest
  end.

Definition sorted_desc (keys : list string) : list string :=
  foldr insert_desc [] keys.

Section Polynomial.

Context {R : Type} `{Coeff R}.

(** An instance: the tuple [self.coefficients], highest power first. *)
Record Polynomial : Type := MkPolynomial { coefficients : list R }.

(** [while c and c[0] == 0: c.pop(0)]. *)
Fixpoint expunge (c : list R) : list R :=
  match c with
  | x :: c' => if decide (x = zero) then expunge c' else c
  | [] => []
  end.

(** The branch [if coefficients:] of [__init__].  A generator argument,
    as [__add__], [__neg__] and [__mul__] pass, is true even when it
    yields nothing, and takes this branch. *)
Definition init_dense (coefficients : list R) : Polynomial :=
  let c := expunge coefficients in
  MkPolynomial (match c with
                | [] => [zero]
                | _ => c
                end).

(** The loop of the branch [elif sparse:]. *)
Fixpoint fill_sparse (highest : Z) (items : list (string * R))
    (coefficients : list R) : result (list R) :=
  match items with
  | [] => Ok coefficients
  | (power, coeff) :: rest =>
      power ← py_int (drop_first power);
      coefficients ← py_setitem coefficients (highest - power) coeff;
      fill_sparse highest rest coefficients
  end.

(** The branch [elif sparse:] of [__init__].  [sparse] is the keyword
    dictionary, in insertion order. *)
Definition init_sparse (sparse : list (string * R)) : result Polynomial :=
  let powers := sorted_desc (map fst sparse) in
  first ← py_index powers 0;
  highest ← py_int (drop_first first);
  let coefficients := replicate (Z.to_nat (highest + 1)) zero in
  coefficients ← fill_sparse highest sparse coefficients;
  Ok (MkPolynomial coefficients).

(** [Polynomial(coefficients, **sparse)] on a list or tuple: the tests
    [if coefficients] and [elif sparse] are true of a non-empty one. *)
Definition Polynomial_init (coefficients : list R) (sparse : list (string * R))
    : result Polynomial :=
  match coefficients, sparse with
  | _ :: _, _ :: _ => Raise TypeError
  | _ :: _, [] => Ok (init_dense coefficients)
  | [], _ :: _ => init_sparse sparse
  | [], [] => Ok (MkPolynomial [zero])
  end.

(** [__len__] and [degree]. *)
Definition Polynomial_len (self : Polynomial) : Z :=
  Z.of_nat (length (coefficients self)).
Definition degree (self : Polynomial) : Z := Polynomial_len self - 1.

(** [__add__]. *)
Definition Polynomial_add (self other : Polynomial) : Polynomial :=
  let diff := Polynomial_len self - Polynomial_len other in
  let t1 := if 0 <? diff then coefficients self
            else replicate (Z.to_nat (- diff)) zero ++ coefficients self in
  let t2 := if 0 <? diff then replicate (Z.to_nat diff) zero ++ coefficients other
            else coefficients other in
  init_dense (zip_with add t1 t2).

(** [__neg__] and [__sub__]. *)
Definition Polynomial_neg (self : Polynomial) : Polynomial :=
  init_dense (map neg (coefficients self)).

(** The inner loop of [__mul__], from index [i2] on:
    [terms[i1+i2] += c1*c2]. *)
Fixpoint mul_inner (i1 : nat) (c1 : R) (i2 : nat) (other_rev : list R)
    (terms : list R) : result (list R) :=
  match other_rev with
  | [] => Ok terms
  | c2 :: rest =>
      let k := Z.of_nat (i1 + i2) in
      t ← py_index terms k;
      terms ← py_setitem terms k (add t (mul c1 c2));
      mul_inner i1 c1 (S i2) rest terms
  end.

(** The outer loop of [__mul__], from index [i1] on. *)
Fixpoint mul_outer (i1 : nat) (self_rev other_rev : list R)
    (terms : list R) : result (list R) :=
  match self_rev with
  | [] => Ok terms
  | c1 :: rest =>
      if decide (c1 = zero) then mul_outer (S i1) rest other_rev terms
      else
        terms ← mul_inner i1 c1 0 other_rev terms;
        mul_outer (S i1) rest other_rev terms
  end.

(** [__mul__]. *)
Definition Polynomial_mul (self other : Polynomial) : result Polynomial :=
  let terms := replicate (length (coefficients self) + length (coefficients other)) zero in
  terms ← mul_outer 0 (reverse (coefficients self)) (reverse (coefficients other)) terms;
  Ok (init_dense (reverse terms)).

(** The quotient coefficient of [__divmod__]: [remainder_coeffs[i]]
    multiplied by the inverse of [divisor_lc] (not at all when
    [divisor_lc] is 1) for a type with [inverse], and
    [remainder_coeffs[i] // divisor_lc] otherwise. *)
Definition quotient_coeff (r divisor_lc : R) : result R :=
  match division with
  | inl inverse =>
      if decide (divisor_lc = one) then Ok r
      else i ← inverse divisor_lc; Ok (mul r i)
  | inr floordiv => floordiv r divisor_lc
  end.

(** The loop [for j in range(1, len(divisor_coeffs))] of [__divmod__],
    over the [j] that remain. *)
Fixpoint update_remainder (i : nat) (q : R) (js : list nat)
    (divisor_coeffs remainder_coeffs : list R) : result (list R) :=
  match js with
  | [] => Ok remainder_coeffs
  | j :: js' =>
      let pos := (i + j)%nat in
      if (pos <? length remainder_coeffs)%nat then
        d ← py_index divisor_coeffs (Z.of_nat j);
        let factor := mul q d in
        if decide (factor = zero)
        then update_remainder i q js' divisor_coeffs remainder_coeffs
        else
          r ← py_index remainder_coeffs (Z.of_nat pos);
          remainder_coeffs ← py_setitem remainder_coeffs (Z.of_nat pos) (sub r factor);
          update_remainder i q js' divisor_coeffs remainder_coeffs
      else update_remainder i q js' divisor_coeffs remainder_coeffs
  end.

(** The loop [for i in range(len(quotient_coeffs))] of [__divmod__],
    over the [i] that remain. *)
Fixpoint divide_loop (range_i : list nat) (divisor_lc : R) (divisor_coeffs : list R)
    (quotient_coeffs remainder_coeffs : list R) : result (list R * list R) :=
  match range_i with
  | [] => Ok (quotient_coeffs, remainder_coeffs)
  | i :: range_i' =>
      r ← py_index remainder_coeffs (Z.of_nat i);
      if decide (r = zero)
      then divide_loop range_i' divisor_lc divisor_coeffs quotient_coeffs remainder_coeffs
      else
        q ← quotient_coeff r divisor_lc;
        quotient_coeffs ← py_setitem quotient_coeffs (Z.of_nat i) q;
        if decide (q = zero)
        then divide_loop range_i' divisor_lc divisor_coeffs quotient_coeffs remainder_coeffs
        else
          remainder_coeffs ←
            update_remainder i q (seq 1 (length divisor_coeffs - 1))
              divisor_coeffs remainder_coeffs;
          divide_loop range_i' divisor_lc divisor_coeffs quotient_coeffs remainder_coeffs
  end.

(** [while len(c) > 1 and c[0] == 0: c.pop(0)]. *)
Fixpoint strip_leading (c : list R) : list R :=
  match c with
  | x :: (_ :: _) as c' => if decide (x = zero) then strip_leading c' else c
  | _ => c
  end.

(** [coefficients == (0,)]. *)
Definition is_zero_tuple (c : list R) : bool :=
  match c with
  | [x] => bool_decide (x = zero)
  | _ => false
  end.

(** [__divmod__]. *)
Definition Polynomial_divmod (self divisor : Polynomial)
    : result (Polynomial * Polynomial) :=
  if is_zero_tuple (coefficients divisor) then Raise ZeroDivisionError
  else if degree self <? degree divisor then
    zero_poly ← Polynomial_init [zero] [];
    Ok (zero_poly, self)
  else
    let dividend_coeffs := coefficients self in
    let divisor_coeffs := coefficients divisor in
    divisor_lc ← py_index divisor_coeffs 0;
    let quotient_coeffs :=
      replicate (Z.to_nat (Z.of_nat (length dividend_coeffs)
                           - Z.of_nat (length divisor_coeffs) + 1)) zero in
    let remainder_coeffs := dividend_coeffs in
    '(quotient_coeffs, remainder_coeffs) ←
      divide_loop (seq 0 (length quotient_coeffs)) divisor_lc divisor_coeffs
        quotient_coeffs remainder_coeffs;
    let quotient_coeffs := strip_leading quotient_coeffs in
    let remainder_coeffs := drop (length quotient_coeffs) remainder_coeffs in
    let remainder_coeffs := strip_leading remainder_coeffs in
    let remainder_coeffs := match remainder_coeffs with
                            | [] => [zero]
                            | _ => remainder_coeffs
                            end in
    quotient ← Polynomial_init quotient_coeffs [];
    remainder ← Polynomial_init remainder_coeffs [];
    Ok (quotient, remainder).

(** [__floordiv__] and [__mod__]. *)
Definition Polynomial_floordiv (self other : Polynomial) : result Polynomial :=
  fst <$> Polynomial_divmod self other.
Definition Polynomial_mod (self other : Polynomial) : result Polynomial :=
  snd <$> Polynomial_divmod self other.

(** [__eq__]. *)
Definition Polynomial_eq (self other : Polynomial) : bool :=
  bool_decide (coefficients self = coefficients other).

End Polynomial.

Arguments Polynomial R : clear implicits.

(** Regular integers as coefficients: they have no [inverse], and [//] is
    floor division. *)
Definition int_floordiv (a b : Z) : result Z :=
  if b =? 0 then Raise ZeroDivisionError else Ok (a / b).

Global Instance int_coeff : Coeff Z := {|
  zero := 0;
  one := 1;
  add := Z.add;
  sub := Z.sub;
  neg := Z.opp;
  mul := Z.mul;
  division := inr int_floordiv
|}.

(** The value a call returns, for the operators of [GF256int] that the
    polynomial code applies to coefficients. *)
Definition returned (r : result GF256int) : GF256int :=
  match r with
  | Ok v => v
  | Raise _ => GF0
  end.

(** Field elements as coefficients.  The operators never raise on field
    elements (lemmas [GF256int_add_total] and [GF256int_mul_total] below),
    so the coefficient operations are the values they return.  The regular
    integer 0 that the polynomial code writes into its lists stands for
    [GF256int(0)]: it compares equal to it, and [__radd__], [__rsub__] and
    [__mul__] treat it as that element. *)
Global Instance GF256int_coeff : Coeff GF256int := {|
  zero := GF0;
  one := GF1;
  add := fun a b => returned (GF256int_add a b);
  sub := fun a b => returned (GF256int_sub a b);
  neg := GF256int_neg;
  mul := fun a b => returned (GF256int_mul a b);
  division := inl GF256int_inverse
|}.

(** The polynomial with the given field elements as coefficients. *)
Definition field_poly (values : list Z) : Polynomial GF256int :=
  MkPolynomial (map (fun v => element (Z.to_nat v)) values).

(** ** polynomial.py: evaluation and coefficient access *)

Section Evaluation.

Context {R : Type} `{Coeff R}.

(** The loop of [evaluate] over the terms that remain, lowest power
    first: [c = c + term * p; p = p * x]. *)
Fixpoint evaluate_loop (terms : list R) (x c p : R) : R :=
  match terms with
  | [] => c
  | term :: rest => evaluate_loop rest x (add c (mul term p)) (mul p x)
  end.

(** [evaluate]: the loop over [reversed(self.coefficients)], started with
    [c = 0] and [p = 1]. *)
Definition Polynomial_evaluate (self : Polynomial R) (x : R) : R :=
  evaluate_loop (reverse (coefficients self)) x zero one.

(** [get_coefficient]: 0 above the degree, else
    [self.coefficients[-(degree+1)]]. *)
Definition Polynomial_get_coefficient (self : Polynomial R) (degree_ : Z) : result R :=
  if degree self <? degree_ then Ok zero
  else py_index (coefficients self) (- (degree_ + 1)).


End Evaluation.

(** * Part 2: the notions of the statements *)

(** Settle the tests [decide] that linear arithmetic decides. *)
Ltac decide_lia :=
  repeat first [rewrite decide_True by lia | rewrite decide_False by lia].

(** The laws the division identity rests on: addition is a commutative
    group operation with [sub] as its inverse, and 0 absorbs on the left
    of a product. *)
Class CoeffLaws (R : Type) `{Coeff R} := {
  add_comm : forall a b : R, add a b = add b a;
  add_assoc : forall a b c : R, add a (add b c) = add (add a b) c;
  add_zero_r : forall a : R, add a zero = a;
  sub_add : forall a b : R, add (sub a b) b = a;
  mul_zero_l : forall a : R, mul zero a = zero
}.

Section Notions.

Context {R : Type} `{Coeff R}.

(** The coefficient at index [i], 0 outside the list. *)
Definition at_index (l : list R) (i : nat) : R := default zero (l !! i).

(** [f 0 + f 1 + ... + f (n-1)], added in that order starting from 0. *)
Fixpoint sum_to (n : nat) (f : nat -> R) : R :=
  match n with
  | O => zero
  | S n' => add (sum_to n' f) (f n')
  end.

(** A polynomial is normalized when the dense constructor, given its
    coefficients, builds it again. *)
Definition normalized (p : Polynomial R) : Prop :=
  Polynomial_init (coefficients p) [] = Ok p.

(** The coefficients padded on the high side with 0 up to length [n]. *)
Definition pad (n : nat) (l : list R) : list R :=
  replicate (n - length l) zero ++ l.

(** What row [i1] of [__mul__] adds to [terms[k]]. *)
Definition conv_term (A B : list R) (k i1 : nat) : R :=
  if decide (i1 <= k < i1 + length B)%nat
  then mul (at_index A i1) (at_index B (k - i1))
  else zero.

(** What quotient coefficient [s] has taken out of the dividend at
    index [t] (indices count from the highest power). *)
Definition div_term (d Q : list R) (t s : nat) : R :=
  if decide (s <= t < s + length d)%nat
  then mul (at_index Q s) (at_index d (t - s))
  else zero.

(** After [i] rounds: the quotient coefficients from [i] on are still 0,
    and at every index the dividend is what is left in the remainder
    (nothing, at an index the loop has passed) plus what the first [i]
    quotient coefficients took out. *)
Definition div_inv (p d : list R) (i : nat) (Q Rm : list R) : Prop :=
  length Q = (length p - length d + 1)%nat /\
  length Rm = length p /\
  (forall s, (i <= s)%nat -> at_index Q s = zero) /\
  (forall t, at_index p t =
             add (if decide (t < i)%nat then zero else at_index Rm t)
                 (sum_to i (div_term d Q t))).

(** The coefficient of [x^k]. *)
Definition power_coef (l : list R) (k : nat) : R := at_index (reverse l) k.

End Notions.

(** ** Checks run over all field elements *)

(** [a * b] and [a.multiply(b)], the latter within eight iterations,
    return the same element. *)
Definition agree_on (a b : GF256int) : bool :=
  match GF256int_mul a b, GF256int_multiply 8 a b with
  | Ok v, Some (Ok w) => to_int v =? to_int w
  | _, _ => false
  end.

(** [a] is 0, or [a * a.inverse()] returns 1. *)
Definition inverse_cancels (a : GF256int) : bool :=
  (to_int a =? 0) ||
  match GF256int_inverse a with
  | Ok i => match GF256int_mul a i with
            | Ok v => to_int v =? 1
            | Raise _ => false
            end
  | Raise _ => false
  end.

(** [a.inverse()] ends at the zero check for 0, at the patch for 255 and
    at the table lookup for every other element. *)
Definition inverse_by_table (a : GF256int) : bool :=
  match GF256int_inverse_traced a with
  | (ZeroCheck, Raise ZeroDivisionError) => to_int a =? 0
  | (Patch255, Ok _) => to_int a =? 255
  | (TableLookup, Ok _) => negb (to_int a =? 0)
  | _ => false
  end.

(** [a] is 0, or [logtable[a]] is an integer. *)
Definition has_log (a : GF256int) : bool :=
  (to_int a =? 0) ||
  match py_index logtable (to_int a) with
  | Ok (Some x) => true
  | _ => false
  end.

(** [exptable[k]] exists and is a value of the field. *)
Definition exp_entry_in_field (k : nat) : bool :=
  match py_index exptable (Z.of_nat k) with
  | Ok e => negb (out_of_field e)
  | Raise _ => false
  end.

(** Dividing by a nonzero field element and multiplying back. *)
Definition divides_back (r lc : GF256int) : bool :=
  (to_int lc =? 0) ||
  match quotient_coeff r lc with
  | Ok q => to_int (mul q lc) =? to_int r
  | Raise _ => false
  end.

(** ** Notions for the further properties of the field *)

(** [logtable[a]] as a number: 0 where the table holds [None]. *)
Definition log_of (a : GF256int) : Z :=
  match py_index logtable (to_int a) with
  | Ok (Some x) => x
  | _ => 0
  end.

(** [a] is 0, or [logtable[a]] is an index [x] below 255 with
    [exptable[x] == a]. *)
Definition log_then_exp (a : GF256int) : bool :=
  (to_int a =? 0) ||
  match py_index logtable (to_int a) with
  | Ok (Some x) =>
      (0 <=? x) && (x <? 255) &&
      match py_index exptable x with
      | Ok e => e =? to_int a
      | Raise _ => false
      end
  | _ => false
  end.

(** [exptable[k]] is a nonzero value of the field whose entry in
    [logtable] is [k]. *)
Definition exp_then_log (k : nat) : bool :=
  match py_index exptable (Z.of_nat k) with
  | Ok e =>
      (1 <=? e) && (e <=? 255) &&
      match py_index logtable e with
      | Ok (Some z) => z =? Z.of_nat k
      | _ => false
      end
  | Raise _ => false
  end.

(** One round of the loop of [multiply] on [p]:
    [p = p << 1; if p & 0x100: p = p ^ 0x11b]. *)
Definition times_x (p : Z) : Z :=
  let p := Z.shiftl p 1 in
  if Z.land p 0x100 =? 0 then p else Z.lxor p 0x11b.

(** [times_x] keeps a value of the field in the field and commutes with
    XOR. *)
Definition times_x_linear (p p' : Z) : bool :=
  (0 <=? times_x p) && (times_x p <? 256) &&
  (times_x (Z.lxor p p') =? Z.lxor (times_x p) (times_x p')).

(** [exptable[k + 1]] is [exptable[k].multiply(3)]. *)
Definition next_power_of_3 (k : nat) : bool :=
  match py_index exptable (Z.of_nat k), py_index exptable (Z.of_nat k + 1) with
  | Ok e, Ok e' =>
      match multiply_loop 8 e 0 3 with
      | Some r => r =? e'
      | None => false
      end
  | _, _ => false
  end.

(** ** Notions for the further properties of polynomials *)

(** The laws of a commutative ring without zero divisors, on top of the
    laws of addition. *)
Class CoeffRing (R : Type) `{CoeffLaws R} := {
  mul_comm : forall a b : R, mul a b = mul b a;
  mul_assoc : forall a b c : R, mul a (mul b c) = mul (mul a b) c;
  mul_one_r : forall a : R, mul a one = a;
  mul_add_r : forall a b c : R, mul a (add b c) = add (mul a b) (mul a c);
  sub_neg : forall a b : R, sub a b = add a (neg b);
  add_neg : forall a : R, add a (neg a) = zero;
  mul_nonzero : forall a b : R, a <> zero -> b <> zero -> mul a b <> zero;
  one_nonzero : (one : R) <> zero
}.

Section RingNotions.

Context {R : Type} `{Coeff R}.

(** [x] to the power [n]. *)
Fixpoint xpow (x : R) (n : nat) : R :=
  match n with
  | O => one
  | S n' => mul x (xpow x n')
  end.

(** The value at [x] of the polynomial with the coefficients [l], lowest
    power first. *)
Fixpoint eval_low (l : list R) (x : R) : R :=
  match l with
  | [] => zero
  | t :: rest => add t (mul x (eval_low rest x))
  end.



End RingNotions.

(** * Part 3: lemmas and theorems *)

(** ** The field operations *)

Lemma GF256int_eq (a b : GF256int) : to_int a = to_int b -> a = b.
Proof.
  destruct a as [x Hx], b as [y Hy]; simpl; intros ->.
  f_equal. apply proof_irrel.
Qed.

Lemma to_int_range (a : GF256int) : 0 <= to_int a <= 255.
Proof.
  destruct a as [x Hx]; simpl. unfold out_of_field in Hx.
  apply orb_false_iff in Hx as [H1 H2]. lia.
Qed.

Lemma GF256int_new_ok (v : Z) (H : out_of_field v = false) :
  GF256int_new v = Ok (MkGF256int v H).
Proof.
  unfold GF256int_new.
  generalize (eq_refl (out_of_field v)).
  generalize (out_of_field v) at 2 3.
  intros [] E.
  - congruence.
  - f_equal. by apply GF256int_eq.
Qed.

Lemma GF256int_new_to_int (a : GF256int) : GF256int_new (to_int a) = Ok a.
Proof. destruct a as [x Hx]. apply GF256int_new_ok. Qed.

Lemma GF256int_new_raises (v : Z) :
  out_of_field v = true -> GF256int_new v = Raise ValueError.
Proof.
  intros H. unfold GF256int_new.
  generalize (eq_refl (out_of_field v)).
  generalize (out_of_field v) at 2 3.
  intros [] E; [done | congruence].
Qed.

Lemma element_to_int (a : GF256int) : element (Z.to_nat (to_int a)) = a.
Proof.
  unfold element. pose proof (to_int_range a).
  rewrite Z2Nat.id by lia. by rewrite GF256int_new_to_int.
Qed.

Lemma field_elements_complete (a : GF256int) : In a field_elements.
Proof.
  unfold field_elements. apply in_map_iff.
  exists (Z.to_nat (to_int a)). split; [apply element_to_int|].
  apply in_seq. pose proof (to_int_range a). lia.
Qed.

(** A boolean property checked on the 256 elements holds of every element. *)
Lemma forall_field (P : GF256int -> bool) :
  forallb P field_elements = true -> forall a, P a = true.
Proof.
  intros H a. rewrite forallb_forall in H. apply H, field_elements_complete.
Qed.

Lemma forall_field2 (P : GF256int -> GF256int -> bool) :
  forallb (fun a => forallb (P a) field_elements) field_elements = true ->
  forall a b, P a b = true.
Proof.
  intros H a b.
  apply (forall_field (P a)), (forall_field (fun a => forallb (P a) field_elements) H).
Qed.

Lemma multiply_loop_more_fuel (k fuel : nat) (p r b v : Z) :
  multiply_loop fuel p r b = Some v ->
  multiply_loop (fuel + k) p r b = Some v.
Proof.
  revert p r b. induction fuel as [|fuel IH]; intros p r b.
  - simpl. destruct k; simpl; destruct (b =? 0); congruence.
  - simpl. destruct (b =? 0); [done|]. apply IH.
Qed.

Lemma agree_on_all (a b : GF256int) : agree_on a b = true.
Proof. revert a b. apply forall_field2. vm_compute. reflexivity. Qed.

(** C5. For every pair of field elements the table-driven [__mul__] and the
    shift-and-XOR reference [multiply] (reduction constant 0x11b) return the
    same element; eight iterations of the reference loop are enough, and
    more change nothing. *)
Theorem table_mul_equals_reference_multiply (a b : GF256int) (k : nat) :
  exists v : GF256int,
    GF256int_mul a b = Ok v /\
    GF256int_multiply (8 + k) a b = Some (Ok v).
Proof.
  pose proof (agree_on_all a b) as H. unfold agree_on in H.
  destruct (GF256int_mul a b) as [v|] eqn:Hm; [|done].
  destruct (GF256int_multiply 8 a b) as [[w|]|] eqn:Hr; try done.
  exists v. split; [done|].
  unfold GF256int_multiply in *.
  destruct (multiply_loop 8 (to_int a) 0 (to_int b)) as [x|] eqn:Hl; [|done].
  rewrite (multiply_loop_more_fuel k 8 _ _ _ x Hl).
  simpl in *. rewrite Hr. do 2 f_equal. apply GF256int_eq. lia.
Qed.

Lemma inverse_cancels_all (a : GF256int) : inverse_cancels a = true.
Proof. revert a. apply forall_field. vm_compute. reflexivity. Qed.

(** C6. For every nonzero field element [a], 255 included,
    [a * a.inverse() == GF256int(1)]. *)
Theorem mul_inverse_is_one (a : GF256int) :
  to_int a <> 0 ->
  exists i : GF256int,
    GF256int_inverse a = Ok i /\
    GF256int_mul a i = GF256int_new 1.
Proof.
  intros Ha. pose proof (inverse_cancels_all a) as H. unfold inverse_cancels in H.
  apply orb_true_iff in H as [H|H]; [lia|].
  destruct (GF256int_inverse a) as [i|]; [|done].
  exists i. split; [done|].
  destruct (GF256int_mul a i) as [v|]; [|done].
  change (GF256int_new 1) with (Ok GF1). f_equal. apply GF256int_eq. simpl. lia.
Qed.

(** The theorem at the element 255, the one [inverse] treats apart. *)
Lemma mul_inverse_is_one_at_255 :
  to_int (element 255) <> 0 /\
  exists i : GF256int,
    GF256int_inverse (element 255) = Ok i /\
    GF256int_mul (element 255) i = GF256int_new 1.
Proof.
  assert (H : to_int (element 255) <> 0) by (vm_compute; discriminate).
  split; [exact H | exact (mul_inverse_is_one (element 255) H)].
Defined.

(** The special case of [inverse] returns the element the table gives for
    log value 7: [exptable[255 - 7]], whose value is 28. *)
Example inverse_255 :
  GF256int_inverse_traced (element 255) = (Patch255, Ok (element 28)) /\
  py_index logtable 255 = Ok (Some 7) /\
  py_index exptable (255 - 7) = Ok 28.
Proof. repeat split; vm_compute; reflexivity. Qed.

Lemma inverse_by_table_all (a : GF256int) : inverse_by_table a = true.
Proof. revert a. apply forall_field. vm_compute. reflexivity. Qed.

(** C9. [a.inverse()] on an element with [1 <= a <= 255] returns a field
    element from the patch for 255 or from the table lookup, never from the
    brute-force fallback; it raises ZeroDivisionError exactly when [a == 0];
    no element reaches the fallback or either ValueError. *)
Theorem inverse_never_falls_back (a : GF256int) :
  (1 <= to_int a <= 255 ->
   exists (br : inverse_branch) (v : GF256int),
     GF256int_inverse_traced a = (br, Ok v) /\
     (br = Patch255 \/ br = TableLookup)) /\
  (GF256int_inverse a = Raise ZeroDivisionError <-> to_int a = 0) /\
  fst (GF256int_inverse_traced a) <> FallbackSearch /\
  fst (GF256int_inverse_traced a) <> MissingLog /\
  GF256int_inverse a <> Raise ValueError.
Proof.
  pose proof (inverse_by_table_all a) as H. unfold inverse_by_table in H.
  unfold GF256int_inverse.
  destruct (GF256int_inverse_traced a) as [br r] eqn:E. simpl.
  destruct br, r as [v|[]]; try discriminate H; simpl.
  - apply Z.eqb_eq in H. split; [lia|]. by repeat split.
  - apply Z.eqb_eq in H. split; [eauto|]. repeat split; try done; lia.
  - apply negb_true_iff, Z.eqb_neq in H. split; [eauto|]. by repeat split.
Qed.

(** The theorem at the element 255. *)
Lemma inverse_never_falls_back_at_255 :
  1 <= to_int (element 255) <= 255 /\
  exists (br : inverse_branch) (v : GF256int),
    GF256int_inverse_traced (element 255) = (br, Ok v) /\
    (br = Patch255 \/ br = TableLookup).
Proof.
  assert (H : 1 <= to_int (element 255) <= 255) by (vm_compute; split; discriminate).
  split; [exact H|].
  exact (proj1 (inverse_never_falls_back (element 255)) H).
Defined.

Lemma has_log_all (a : GF256int) : has_log a = true.
Proof. revert a. apply forall_field. vm_compute. reflexivity. Qed.

Lemma exptable_entry (z : Z) :
  0 <= z < 256 ->
  exists v : GF256int, py_index exptable z = Ok (to_int v).
Proof.
  intros Hz.
  assert (H : forallb exp_entry_in_field (seq 0 256) = true) by (vm_compute; reflexivity).
  rewrite forallb_forall in H. specialize (H (Z.to_nat z)).
  unfold exp_entry_in_field in H. rewrite Z2Nat.id in H by lia.
  destruct (py_index exptable z) as [e|]; [|discriminate H; apply in_seq; lia].
  assert (He : out_of_field e = false).
  { apply negb_true_iff, H, in_seq. lia. }
  by exists (MkGF256int e He).
Qed.

(** C8. [a ** b] with [b] a field element raises TypeError, for every [a];
    for a nonzero [a] and a regular integer [n], [a ** n] returns the
    element [exptable[(logtable[a] * n) % 255]]. *)
Theorem pow_field_power_raises_int_power_by_tables (a : GF256int) :
  (forall b : GF256int, GF256int_pow a (PowGF b) = Raise TypeError) /\
  (to_int a <> 0 ->
   forall n : Z, exists (x : Z) (v : GF256int),
     py_index logtable (to_int a) = Ok (Some x) /\
     py_index exptable ((x * n) mod 255) = Ok (to_int v) /\
     GF256int_pow a (PowInt n) = Ok v).
Proof.
  split; [done|]. intros Ha n.
  pose proof (has_log_all a) as H. unfold has_log in H.
  apply orb_true_iff in H as [H|H]; [lia|].
  destruct (py_index logtable (to_int a)) as [[x|]|] eqn:Hx; try done.
  destruct (exptable_entry ((x * n) mod 255)) as [v Hv].
  { pose proof (Z.mod_pos_bound (x * n) 255). lia. }
  exists x, v. repeat split; [done|].
  unfold GF256int_pow. rewrite Hx. simpl. rewrite Hv. simpl.
  apply GF256int_new_to_int.
Qed.

(** The theorem at [GF256int(3) ** GF256int(2)] and [GF256int(3) ** 5]. *)
Lemma pow_field_power_raises_int_power_by_tables_at_3 :
  to_int (element 3) <> 0 /\
  GF256int_pow (element 3) (PowGF (element 2)) = Raise TypeError /\
  exists (x : Z) (v : GF256int),
     py_index logtable (to_int (element 3)) = Ok (Some x) /\
     py_index exptable ((x * 5) mod 255) = Ok (to_int v) /\
     GF256int_pow (element 3) (PowInt 5) = Ok v.
Proof.
  assert (H : to_int (element 3) <> 0) by (vm_compute; discriminate).
  split; [exact H|]. split.
  - exact (proj1 (pow_field_power_raises_int_power_by_tables (element 3)) (element 2)).
  - exact (proj2 (pow_field_power_raises_int_power_by_tables (element 3)) H 5).
Defined.

(** C10. [GF256int(0) ** n] raises TypeError for every regular integer [n],
    positive ones included: the log table holds [None] at index 0, and
    [None * n] is a type error. *)
Theorem pow_of_zero_raises_TypeError (n : Z) :
  GF256int_new 0 = Ok GF0 /\
  py_index logtable 0 = Ok None /\
  GF256int_pow GF0 (PowInt n) = Raise TypeError.
Proof. repeat split. Qed.

Lemma GF256int_mul_returns (a b : GF256int) :
  exists v : GF256int, GF256int_mul a b = Ok v.
Proof.
  pose proof (agree_on_all a b) as H. unfold agree_on in H.
  destruct (GF256int_mul a b) as [v|]; [by exists v|done].
Qed.

Lemma GF256int_inverse_returns (a : GF256int) :
  to_int a <> 0 ->
  exists i : GF256int, GF256int_inverse a = Ok i /\ GF256int_mul a i = Ok GF1.
Proof.
  intros Ha. pose proof (inverse_cancels_all a) as H. unfold inverse_cancels in H.
  apply orb_true_iff in H as [H|H]; [lia|].
  destruct (GF256int_inverse a) as [i|]; [|done].
  exists i. split; [done|].
  destruct (GF256int_mul a i) as [v|]; [|done].
  f_equal. apply GF256int_eq. simpl. lia.
Qed.

(** The method [__div__] itself computes [self * other.inverse()] and
    returns a field element whenever [other] is not zero. *)
Lemma GF256int_div_is_mul_inverse (a b : GF256int) :
  to_int b <> 0 ->
  exists i v : GF256int,
    GF256int_inverse b = Ok i /\
    GF256int_mul a i = Ok v /\
    GF256int_div a b = Ok v.
Proof.
  intros Hb.
  destruct (GF256int_inverse_returns b Hb) as (i & Hi & _).
  destruct (GF256int_mul_returns a i) as (v & Hv).
  exists i, v. repeat split; try done.
  unfold GF256int_div. rewrite GF256int_new_to_int. simpl. rewrite Hi. done.
Qed.

(** C4. The operator [/] does not reach [__div__]: on [GF256int(1)] and
    [GF256int(3)] it returns the float nearest to 1/3, while
    [GF256int(1) * GF256int(3).inverse()], which is what [__div__] returns,
    is [GF256int(246)]. *)
Theorem truediv_operator_bypasses_div :
  GF256int_truediv_operator (element 1) (element 3) = Ok (FloatOfQuotient 1 3) /\
  GF256int_inverse (element 3) = Ok (element 246) /\
  GF256int_mul (element 1) (element 246) = Ok (element 246) /\
  GF256int_div (element 1) (element 3) = Ok (element 246).
Proof. repeat split; vm_compute; reflexivity. Qed.

(** ** Indexing inside the bounds *)

Lemma py_index_in_range {A} (l : list A) (i : nat) (x : A) :
  l !! i = Some x -> py_index l (Z.of_nat i) = Ok x.
Proof.
  intros Hx. pose proof (lookup_lt_Some _ _ _ Hx) as Hlt.
  assert (H1 : (Z.of_nat i <? 0) = false) by (apply Z.ltb_ge; lia).
  assert (H2 : (Z.of_nat (length l) <=? Z.of_nat i) = false) by (apply Z.leb_gt; lia).
  unfold py_index. rewrite H1. cbv zeta. rewrite H1, H2. simpl.
  by rewrite Nat2Z.id, Hx.
Qed.

Lemma py_setitem_in_range {A} (l : list A) (i : nat) (v : A) :
  (i < length l)%nat -> py_setitem l (Z.of_nat i) v = Ok (<[i:=v]> l).
Proof.
  intros Hlt.
  assert (H1 : (Z.of_nat i <? 0) = false) by (apply Z.ltb_ge; lia).
  assert (H2 : (Z.of_nat (length l) <=? Z.of_nat i) = false) by (apply Z.leb_gt; lia).
  unfold py_setitem. rewrite H1. cbv zeta. rewrite H1, H2. simpl.
  by rewrite Nat2Z.id.
Qed.

(** ** Polynomials over a coefficient type with the laws *)

Section Laws.

Context {R : Type} `{CoeffLaws R}.

Lemma add_zero_l (a : R) : add zero a = a.
Proof. by rewrite add_comm, add_zero_r. Qed.

Lemma sub_zero_r (a : R) : sub a zero = a.
Proof. by rewrite <- (add_zero_r (sub a zero)), sub_add. Qed.

(** [(x - f) + (s + f) = x + s]. *)
Lemma add_sub_shuffle (x f s : R) : add (sub x f) (add s f) = add x s.
Proof. by rewrite (add_comm s f), add_assoc, sub_add. Qed.

Lemma at_index_lookup (l : list R) (i : nat) (x : R) :
  l !! i = Some x -> at_index l i = x.
Proof. unfold at_index. by intros ->. Qed.

Lemma at_index_ge (l : list R) (i : nat) :
  (length l <= i)%nat -> at_index l i = zero.
Proof. intros Hi. unfold at_index. by rewrite (proj2 (lookup_ge_None l i) Hi). Qed.

Lemma lookup_at_index (l : list R) (i : nat) :
  (i < length l)%nat -> l !! i = Some (at_index l i).
Proof.
  intros Hi. destruct (lookup_lt_is_Some_2 l i Hi) as [x Hx].
  by rewrite (at_index_lookup _ _ _ Hx).
Qed.

Lemma at_index_insert (l : list R) (i j : nat) (v : R) :
  (i < length l)%nat ->
  at_index (<[i:=v]> l) j = if decide (j = i) then v else at_index l j.
Proof.
  intros Hi. unfold at_index. destruct (decide (j = i)) as [->|Hne].
  - by rewrite list_lookup_insert_eq.
  - by rewrite list_lookup_insert_ne.
Qed.

Lemma at_index_replicate (n i : nat) : at_index (replicate n zero) i = zero.
Proof.
  destruct (decide (i < n)%nat) as [Hi|Hi].
  - apply at_index_lookup. by apply lookup_replicate_2.
  - apply at_index_ge. rewrite length_replicate. lia.
Qed.

Lemma at_index_reverse (l : list R) (i : nat) :
  (i < length l)%nat -> at_index (reverse l) i = at_index l (length l - S i).
Proof. intros Hi. unfold at_index. by rewrite reverse_lookup. Qed.

Lemma list_eq_at_index (l1 l2 : list R) :
  length l1 = length l2 ->
  (forall i, (i < length l1)%nat -> at_index l1 i = at_index l2 i) ->
  l1 = l2.
Proof.
  intros Hlen Hat. apply list_eq. intros i.
  destruct (decide (i < length l1)%nat) as [Hi|Hi].
  - rewrite !lookup_at_index by lia. f_equal. by apply Hat.
  - rewrite (proj2 (lookup_ge_None l1 i)), (proj2 (lookup_ge_None l2 i)) by lia. done.
Qed.

Lemma sum_to_ext (n : nat) (f g : nat -> R) :
  (forall i, (i < n)%nat -> f i = g i) -> sum_to n f = sum_to n g.
Proof.
  induction n as [|n IH]; intros Hfg; [done|]. simpl.
  rewrite IH by (intros; apply Hfg; lia). by rewrite Hfg by lia.
Qed.

Lemma sum_to_zero (n : nat) (f : nat -> R) :
  (forall i, (i < n)%nat -> f i = zero) -> sum_to n f = zero.
Proof.
  induction n as [|n IH]; intros Hf; [done|]. simpl.
  rewrite IH by (intros; apply Hf; lia). rewrite Hf by lia. apply add_zero_r.
Qed.

(** The first term can be split off instead of the last. *)
Lemma sum_to_first (n : nat) (f : nat -> R) :
  sum_to (S n) f = add (f O) (sum_to n (fun i => f (S i))).
Proof.
  induction n as [|n IH].
  - simpl. by rewrite add_zero_l, add_zero_r.
  - change (sum_to (S (S n)) f) with (add (sum_to (S n) f) (f (S n))).
    rewrite IH. simpl. by rewrite add_assoc.
Qed.

(** Adding the terms in the opposite order gives the same sum. *)
Lemma sum_to_reverse (n : nat) (f : nat -> R) :
  sum_to n f = sum_to n (fun i => f (n - S i)%nat).
Proof.
  revert f. induction n as [|n IH]; intros f; [done|].
  rewrite sum_to_first. simpl. rewrite add_comm. f_equal.
  - rewrite IH. apply sum_to_ext. intros i Hi. f_equal. lia.
  - f_equal. lia.
Qed.

Lemma expunge_replicate (k : nat) (l : list R) :
  expunge (replicate k zero ++ l) = expunge l.
Proof. induction k as [|k IH]; [done|]. simpl. by rewrite decide_True. Qed.

Lemma expunge_prefix (l : list R) :
  exists k : nat, l = replicate k zero ++ expunge l.
Proof.
  induction l as [|x l [k IH]]; [by exists O|]. simpl.
  destruct (decide (x = zero)) as [->|Hx].
  - exists (S k). simpl. by rewrite <- IH.
  - by exists O.
Qed.

Lemma expunge_nonzero (x : R) (l : list R) :
  x <> zero -> expunge (x :: l) = x :: l.
Proof. intros Hx. simpl. by rewrite decide_False. Qed.

Lemma expunge_idemp (l : list R) : expunge (expunge l) = expunge l.
Proof.
  induction l as [|x l IH]; [done|]. simpl.
  destruct (decide (x = zero)); [done|]. by apply expunge_nonzero.
Qed.

Lemma init_dense_pad (n : nat) (l : list R) :
  init_dense (pad n l) = init_dense l.
Proof. unfold init_dense, pad. by rewrite expunge_replicate. Qed.

Lemma pad_init_dense (n : nat) (l : list R) :
  (length l <= n)%nat -> (1 <= n)%nat ->
  pad n (coefficients (init_dense l)) = pad n l.
Proof.
  intros Hl Hn. unfold init_dense, pad. simpl.
  destruct (expunge_prefix l) as [k Hk].
  assert (Hlen : length l = (k + length (expunge l))%nat).
  { rewrite Hk at 1. by rewrite length_app, length_replicate. }
  destruct (expunge l) as [|x e] eqn:He.
  - rewrite Hk. simpl in *. rewrite app_nil_r, length_replicate.
    replace (replicate (n - 1) zero ++ [zero]) with (replicate (n - 1 + 1) zero)
      by (by rewrite replicate_add).
    rewrite <- replicate_add. f_equal. lia.
  - rewrite Hk at 2. rewrite app_assoc, <- replicate_add. f_equal. f_equal. lia.
Qed.

Lemma normalized_init_dense (l : list R) : normalized (init_dense l).
Proof.
  unfold normalized, init_dense. simpl.
  destruct (expunge l) as [|x e] eqn:He.
  - simpl. unfold init_dense. simpl. by rewrite decide_True.
  - simpl. unfold init_dense. by rewrite <- He, expunge_idemp, He.
Qed.

Lemma normalized_eq (p : Polynomial R) :
  normalized p -> init_dense (coefficients p) = p.
Proof.
  unfold normalized, Polynomial_init. destruct p as [[|x l]]; cbn [coefficients].
  - intros E. discriminate E.
  - intros E. unfold init_dense in *. congruence.
Qed.

Lemma normalized_cases (p : Polynomial R) :
  normalized p ->
  coefficients p = [zero] \/
  exists x l, coefficients p = x :: l /\ x <> zero.
Proof.
  intros Hp. apply normalized_eq in Hp. rewrite <- Hp.
  unfold init_dense. simpl.
  destruct (expunge (coefficients p)) as [|x e] eqn:He; [by left|right].
  exists x, e. split; [done|].
  intros ->. pose proof (expunge_idemp (coefficients p)) as Hi.
  rewrite He in Hi. simpl in Hi. rewrite decide_True in Hi by done.
  destruct (expunge_prefix e) as [k Hk].
  assert (length (expunge e) = S (length e)) as Hlen by (by rewrite Hi).
  rewrite Hk in Hlen at 2. rewrite length_app in Hlen. lia.
Qed.

(** Normalized means: the single coefficient 0, or a leading
    coefficient that is not 0. *)
Lemma normalized_iff (p : Polynomial R) :
  normalized p <->
  coefficients p = [zero] \/
  exists x l, coefficients p = x :: l /\ x <> zero.
Proof.
  split; [apply normalized_cases|].
  destruct p as [c]. simpl. intros [->|(x & l & -> & Hx)].
  - unfold normalized. simpl. unfold init_dense. simpl. by rewrite decide_True.
  - unfold normalized. simpl. unfold init_dense. by rewrite expunge_nonzero.
Qed.

Lemma normalized_pad_inj (n : nat) (p q : Polynomial R) :
  normalized p -> normalized q ->
  pad n (coefficients p) = pad n (coefficients q) -> p = q.
Proof.
  intros Hp Hq Hpad.
  rewrite <- (normalized_eq p Hp), <- (normalized_eq q Hq).
  by rewrite <- (init_dense_pad n (coefficients p)), Hpad, init_dense_pad.
Qed.

Lemma init_list (l : list R) :
  l <> [] -> Polynomial_init l [] = Ok (init_dense l).
Proof. by destruct l. Qed.

Lemma pad_length (n : nat) (l : list R) :
  (length l <= n)%nat -> length (pad n l) = n.
Proof. intros Hl. unfold pad. rewrite length_app, length_replicate. lia. Qed.

Lemma pad_pad (n m : nat) (l : list R) :
  (length l <= m)%nat -> (m <= n)%nat ->
  pad n l = replicate (n - m) zero ++ pad m l.
Proof.
  intros Hl Hm. unfold pad. rewrite app_assoc, <- replicate_add.
  do 2 f_equal. lia.
Qed.

Lemma pad_exact (l : list R) : pad (length l) l = l.
Proof. unfold pad. by rewrite Nat.sub_diag. Qed.

Lemma pad_Polynomial_add (n : nat) (a b : Polynomial R) :
  (length (coefficients a) <= n)%nat ->
  (length (coefficients b) <= n)%nat ->
  (1 <= n)%nat ->
  pad n (coefficients (Polynomial_add a b)) =
  zip_with add (pad n (coefficients a)) (pad n (coefficients b)).
Proof.
  intros Ha Hb Hn. unfold Polynomial_add, Polynomial_len.
  set (la := length (coefficients a)) in *.
  set (lb := length (coefficients b)) in *.
  set (m := Nat.max la lb).
  assert (Ht : (if 0 <? Z.of_nat la - Z.of_nat lb then coefficients a
                else replicate (Z.to_nat (- (Z.of_nat la - Z.of_nat lb))) zero
                     ++ coefficients a) = pad m (coefficients a) /\
               (if 0 <? Z.of_nat la - Z.of_nat lb
                then replicate (Z.to_nat (Z.of_nat la - Z.of_nat lb)) zero
                     ++ coefficients b
                else coefficients b) = pad m (coefficients b)).
  { unfold pad. fold la lb. destruct (0 <? Z.of_nat la - Z.of_nat lb) eqn:E.
    - apply Z.ltb_lt in E.
      replace (m - la)%nat with O by lia.
      replace (m - lb)%nat with (Z.to_nat (Z.of_nat la - Z.of_nat lb)) by lia.
      done.
    - apply Z.ltb_ge in E.
      replace (m - lb)%nat with O by lia.
      replace (m - la)%nat with (Z.to_nat (- (Z.of_nat la - Z.of_nat lb))) by lia.
      done. }
  destruct Ht as [-> ->].
  assert (Hla : length (pad m (coefficients a)) = m) by (apply pad_length; lia).
  assert (Hlb : length (pad m (coefficients b)) = m) by (apply pad_length; lia).
  rewrite pad_init_dense; [|rewrite length_zip_with; lia|done].
  rewrite (pad_pad n m (coefficients a)), (pad_pad n m (coefficients b)) by lia.
  rewrite zip_with_app by (by rewrite !length_replicate).
  rewrite zip_with_replicate, add_zero_r.
  unfold pad at 1. rewrite length_zip_with, Hla, Hlb.
  do 2 f_equal. lia.
Qed.

Lemma mul_inner_spec (i1 : nat) (c1 : R) (B : list R) :
  forall (i2 : nat) (terms : list R),
    (i1 + i2 + length B <= length terms)%nat ->
    exists terms',
      mul_inner i1 c1 i2 B terms = Ok terms' /\
      length terms' = length terms /\
      forall k, at_index terms' k =
        if decide (i1 + i2 <= k < i1 + i2 + length B)%nat
        then add (at_index terms k) (mul c1 (at_index B (k - (i1 + i2))))
        else at_index terms k.
Proof.
  induction B as [|c2 B IH]; intros i2 terms Hlen.
  - exists terms. split; [done|]. split; [done|]. intros k. simpl.
    rewrite decide_False by lia. done.
  - simpl in Hlen. simpl mul_inner.
    rewrite (py_index_in_range terms (i1 + i2) (at_index terms (i1 + i2)))
      by (apply lookup_at_index; lia).
    simpl. rewrite py_setitem_in_range by lia. simpl.
    destruct (IH (S i2) (<[(i1 + i2)%nat := add (at_index terms (i1 + i2)) (mul c1 c2)]> terms))
      as (terms' & Hrun & Hl & Hat).
    { rewrite length_insert. lia. }
    exists terms'. split; [done|]. split; [by rewrite Hl, length_insert|].
    intros k. rewrite Hat. rewrite at_index_insert by lia. simpl length.
    destruct (decide (k = i1 + i2)%nat) as [->|Hk].
    + rewrite decide_False by lia. rewrite decide_True by lia.
      by rewrite Nat.sub_diag.
    + destruct (decide (i1 + S i2 <= k < i1 + S i2 + length B)%nat) as [Hin|Hout].
      * rewrite decide_True by lia. do 2 f_equal.
        replace (k - (i1 + i2))%nat with (S (k - (i1 + S i2))) by lia. done.
      * rewrite decide_False by lia. done.
Qed.

Lemma mul_outer_spec (A B : list R) :
  forall (rest : list R) (i1 : nat) (terms : list R),
    drop i1 A = rest ->
    (i1 <= length A)%nat ->
    (length A + length B <= length terms)%nat ->
    (forall k, at_index terms k = sum_to i1 (conv_term A B k)) ->
    exists terms',
      mul_outer i1 rest B terms = Ok terms' /\
      length terms' = length terms /\
      forall k, at_index terms' k = sum_to (length A) (conv_term A B k).
Proof.
  induction rest as [|c1 rest IH]; intros i1 terms Hdrop Hi1 Hlen Hat.
  - exists terms. split; [done|]. split; [done|]. intros k. rewrite Hat.
    assert (length (drop i1 A) = O) as Hd by (by rewrite Hdrop).
    rewrite length_drop in Hd. by replace i1 with (length A) by lia.
  - assert (Hc1 : A !! i1 = Some c1).
    { rewrite <- (Nat.add_0_r i1), <- lookup_drop, Hdrop. done. }
    pose proof (lookup_lt_Some _ _ _ Hc1) as Hlt.
    assert (Hrest : drop (S i1) A = rest).
    { rewrite (drop_S A c1 i1 Hc1) in Hdrop. by injection Hdrop. }
    simpl mul_outer. destruct (decide (c1 = zero)) as [Hz|Hnz].
    + apply IH; [done|lia|done|]. intros k. simpl. rewrite <- Hat.
      unfold conv_term. rewrite (at_index_lookup _ _ _ Hc1), Hz, mul_zero_l.
      destruct (decide _); by rewrite add_zero_r.
    + destruct (mul_inner_spec i1 c1 B O terms) as (terms1 & Hrun & Hl & Hat1); [lia|].
      rewrite Hrun. simpl.
      destruct (IH (S i1) terms1) as (terms' & Hrun' & Hl' & Hat'); [done|lia|lia| |].
      * intros k. rewrite Hat1. simpl. rewrite <- Hat. unfold conv_term.
        rewrite (at_index_lookup _ _ _ Hc1), !Nat.add_0_r.
        destruct (decide _); [done|by rewrite add_zero_r].
      * exists terms'. split; [done|]. split; [congruence|done].
Qed.

Lemma Polynomial_mul_spec (a b : Polynomial R) :
  exists terms,
    Polynomial_mul a b = Ok (init_dense (reverse terms)) /\
    length terms = (length (coefficients a) + length (coefficients b))%nat /\
    forall k, at_index terms k =
      sum_to (length (coefficients a))
        (conv_term (reverse (coefficients a)) (reverse (coefficients b)) k).
Proof.
  unfold Polynomial_mul.
  destruct (mul_outer_spec (reverse (coefficients a)) (reverse (coefficients b))
              (reverse (coefficients a)) O
              (replicate (length (coefficients a) + length (coefficients b)) zero))
    as (terms & Hrun & Hl & Hat).
  - done.
  - lia.
  - by rewrite !length_reverse, length_replicate.
  - intros k. by rewrite at_index_replicate.
  - exists terms. rewrite Hrun. simpl. split; [done|].
    rewrite Hl, length_replicate. split; [done|].
    intros k. by rewrite Hat, length_reverse.
Qed.

Lemma update_remainder_spec (i : nat) (q : R) (d : list R) :
  forall (cnt j0 : nat) (Rm : list R),
    (j0 + cnt <= length d)%nat ->
    (i + j0 + cnt <= length Rm)%nat ->
    exists Rm',
      update_remainder i q (seq j0 cnt) d Rm = Ok Rm' /\
      length Rm' = length Rm /\
      forall t, at_index Rm' t =
        if decide (i + j0 <= t < i + j0 + cnt)%nat
        then sub (at_index Rm t) (mul q (at_index d (t - i)))
        else at_index Rm t.
Proof.
  induction cnt as [|cnt IH]; intros j0 Rm Hd HRm.
  - exists Rm. split; [done|]. split; [done|]. intros t.
    rewrite decide_False by lia. done.
  - simpl seq. simpl update_remainder.
    assert (Hpos : ((i + j0 <? length Rm)%nat) = true) by (apply Nat.ltb_lt; lia).
    rewrite Hpos.
    rewrite (py_index_in_range d j0 (at_index d j0)) by (apply lookup_at_index; lia).
    simpl. destruct (decide (mul q (at_index d j0) = zero)) as [Hf|Hf].
    + destruct (IH (S j0) Rm) as (Rm' & Hrun & Hl & Hat); [lia|lia|].
      exists Rm'. split; [done|]. split; [done|]. intros t. rewrite Hat.
      destruct (decide (t = i + j0)%nat) as [->|Ht].
      * rewrite decide_False by lia. rewrite decide_True by lia.
        replace (i + j0 - i)%nat with j0 by lia. by rewrite Hf, sub_zero_r.
      * destruct (decide (i + S j0 <= t < i + S j0 + cnt)%nat).
        -- by rewrite decide_True by lia.
        -- by rewrite decide_False by lia.
    + rewrite (py_index_in_range Rm (i + j0) (at_index Rm (i + j0)))
        by (apply lookup_at_index; lia).
      simpl. rewrite py_setitem_in_range by lia. simpl.
      destruct (IH (S j0)
                  (<[(i + j0)%nat := sub (at_index Rm (i + j0)) (mul q (at_index d j0))]> Rm))
        as (Rm' & Hrun & Hl & Hat); [lia|rewrite length_insert; lia|].
      exists Rm'. split; [done|]. split; [by rewrite Hl, length_insert|].
      intros t. rewrite Hat, at_index_insert by lia.
      destruct (decide (t = i + j0)%nat) as [->|Ht].
      * rewrite decide_False by lia. rewrite decide_True by lia.
        by replace (i + j0 - i)%nat with j0 by lia.
      * destruct (decide (i + S j0 <= t < i + S j0 + cnt)%nat).
        -- by rewrite decide_True by lia.
        -- by rewrite decide_False by lia.
Qed.

Lemma div_term_insert (d Q : list R) (t s i : nat) (q : R) :
  s <> i -> (i < length Q)%nat ->
  div_term d (<[i:=q]> Q) t s = div_term d Q t s.
Proof.
  intros Hs Hi. unfold div_term.
  rewrite at_index_insert by done. by destruct (decide (s = i)).
Qed.

Lemma divide_loop_spec (p d : list R) (lc : R) :
  d !! O = Some lc ->
  (length d <= length p)%nat ->
  (forall r, exists q, quotient_coeff r lc = Ok q /\ mul q lc = r) ->
  forall (cnt i : nat) (Q Rm : list R),
    (i + cnt = length p - length d + 1)%nat ->
    div_inv p d i Q Rm ->
    exists Q' Rm',
      divide_loop (seq i cnt) lc d Q Rm = Ok (Q', Rm') /\
      div_inv p d (length p - length d + 1) Q' Rm'.
Proof.
  intros Hlc Hdp Hexact.
  pose proof (lookup_lt_Some _ _ _ Hlc) as Hd1.
  induction cnt as [|cnt IH]; intros i Q Rm Hi Hinv.
  - exists Q, Rm. split; [done|]. by replace (length p - length d + 1)%nat with i by lia.
  - destruct Hinv as (HlQ & HlR & HQ0 & Hmain).
    simpl seq. simpl divide_loop.
    rewrite (py_index_in_range Rm i (at_index Rm i)) by (apply lookup_at_index; lia).
    simpl. destruct (decide (at_index Rm i = zero)) as [Hr|Hr].
    + apply IH; [lia|]. split; [done|]. split; [done|]. split.
      { intros s Hs. apply HQ0. lia. }
      intros t. rewrite Hmain. simpl sum_to.
      assert (Hterm : div_term d Q t i = zero).
      { unfold div_term. rewrite HQ0 by lia. rewrite mul_zero_l. by destruct (decide _). }
      rewrite Hterm, add_zero_r.
      destruct (decide (t = i)) as [->|Ht].
      * rewrite decide_False by lia. rewrite decide_True by lia. by rewrite Hr.
      * destruct (decide (t < i)%nat).
        -- by rewrite decide_True by lia.
        -- by rewrite decide_False by lia.
    + destruct (Hexact (at_index Rm i)) as (q & Hq & Hqlc).
      rewrite Hq. simpl. rewrite py_setitem_in_range by lia. simpl.
      destruct (decide (q = zero)) as [Hqz|Hqz].
      { exfalso. apply Hr. by rewrite <- Hqlc, Hqz, mul_zero_l. }
      destruct (update_remainder_spec i q d (length d - 1) 1 Rm)
        as (Rm' & Hrun & Hl & Hat); [lia|lia|].
      rewrite Hrun. simpl. apply IH; [lia|].
      split; [by rewrite length_insert|]. split; [congruence|]. split.
      { intros s Hs. rewrite at_index_insert by lia.
        rewrite decide_False by lia. apply HQ0. lia. }
      intros t. rewrite Hmain. simpl sum_to.
      rewrite (sum_to_ext i (div_term d (<[i:=q]> Q) t) (div_term d Q t))
        by (intros s Hs; apply div_term_insert; lia).
      rewrite Hat. unfold div_term at 3.
      rewrite at_index_insert by lia. rewrite (decide_True _ _ (eq_refl i)).
      destruct (lt_eq_lt_dec t i) as [[Hti| ->]|Hti].
      * decide_lia. by rewrite add_zero_r.
      * decide_lia.
        rewrite Nat.sub_diag, (at_index_lookup _ _ _ Hlc), Hqlc.
        by rewrite add_zero_l, add_comm.
      * destruct (le_lt_dec (i + length d) t) as [Htm|Htm].
        -- decide_lia. by rewrite add_zero_r.
        -- decide_lia. by rewrite add_sub_shuffle.
Qed.

Lemma power_coef_lt (l : list R) (k : nat) :
  (k < length l)%nat -> power_coef l k = at_index l (length l - S k).
Proof. apply at_index_reverse. Qed.

Lemma power_coef_ge (l : list R) (k : nat) :
  (length l <= k)%nat -> power_coef l k = zero.
Proof. intros Hk. apply at_index_ge. by rewrite length_reverse. Qed.

Lemma power_coef_pad (n : nat) (l : list R) (k : nat) :
  power_coef (pad n l) k = power_coef l k.
Proof.
  unfold power_coef, pad, at_index.
  rewrite reverse_app, reverse_replicate.
  destruct (decide (k < length l)%nat) as [Hk|Hk].
  - by rewrite lookup_app_l by (by rewrite length_reverse).
  - rewrite lookup_app_r by (rewrite length_reverse; lia).
    rewrite (proj2 (lookup_ge_None (reverse l) k)) by (rewrite length_reverse; lia).
    simpl. apply (at_index_replicate (n - length l)).
Qed.

Lemma power_coef_zip_add (l1 l2 : list R) (k : nat) :
  length l1 = length l2 ->
  power_coef (zip_with add l1 l2) k = add (power_coef l1 k) (power_coef l2 k).
Proof.
  intros Hlen. destruct (decide (k < length l1)%nat) as [Hk|Hk].
  - rewrite !power_coef_lt by (rewrite ?length_zip_with; lia).
    rewrite length_zip_with, <- Hlen, Nat.min_id.
    unfold at_index at 1. rewrite lookup_zip_with.
    rewrite (lookup_at_index l1), (lookup_at_index l2) by lia. done.
  - rewrite !power_coef_ge by (rewrite ?length_zip_with; lia).
    by rewrite add_zero_r.
Qed.

Lemma power_coef_reverse (l : list R) (k : nat) :
  power_coef (reverse l) k = at_index l k.
Proof. unfold power_coef. by rewrite reverse_involutive. Qed.

Lemma list_eq_power_coef (l1 l2 : list R) :
  length l1 = length l2 ->
  (forall k, power_coef l1 k = power_coef l2 k) ->
  l1 = l2.
Proof.
  intros Hlen Hk. apply (inj reverse).
  apply list_eq_at_index; [by rewrite !length_reverse|]. intros i _. apply Hk.
Qed.

Lemma length_init_dense (l : list R) :
  (length (coefficients (init_dense l)) <= Nat.max 1 (length l))%nat.
Proof.
  unfold init_dense. simpl. destruct (expunge_prefix l) as [k Hk].
  destruct (expunge l) as [|x e]; simpl; [lia|].
  rewrite Hk, length_app. simpl. lia.
Qed.

Lemma power_coef_init_dense (l : list R) (k : nat) :
  power_coef (coefficients (init_dense l)) k = power_coef l k.
Proof.
  rewrite <- (power_coef_pad (Nat.max 1 (length l)) (coefficients _)).
  rewrite pad_init_dense by lia. apply power_coef_pad.
Qed.

(** If every coefficient of [p] is the convolution sum of [q] and [d]
    plus the coefficient of [r], then [q * d + r] is [p]. *)
Lemma reconstruct (q d r p : Polynomial R) :
  normalized p ->
  (forall k, power_coef (coefficients p) k =
             add (sum_to (length (coefficients q))
                    (conv_term (reverse (coefficients q)) (reverse (coefficients d)) k))
                 (power_coef (coefficients r) k)) ->
  exists prod, Polynomial_mul q d = Ok prod /\ Polynomial_add prod r = p.
Proof.
  intros Hp Hcoef.
  destruct (Polynomial_mul_spec q d) as (terms & Hmul & Hlen & Hat).
  exists (init_dense (reverse terms)). split; [done|].
  set (prod := init_dense (reverse terms)).
  set (n := S (Nat.max (length terms)
                 (Nat.max (length (coefficients r)) (length (coefficients p))))).
  pose proof (length_init_dense (reverse terms)) as Hprod.
  rewrite length_reverse in Hprod. fold prod in Hprod.
  apply (normalized_pad_inj n); [apply normalized_init_dense|done|].
  rewrite pad_Polynomial_add by lia.
  apply list_eq_power_coef.
  { rewrite length_zip_with, !pad_length by lia. lia. }
  intros k. rewrite power_coef_zip_add by (rewrite !pad_length by lia; done).
  rewrite !power_coef_pad. unfold prod.
  by rewrite power_coef_init_dense, power_coef_reverse, Hat, Hcoef.
Qed.

Lemma strip_leading_normal (l : list R) :
  (length l <= 1)%nat \/ (exists x l', l = x :: l' /\ x <> zero) ->
  strip_leading l = l.
Proof.
  intros [Hl|(x & l' & -> & Hx)].
  - by destruct l as [|x [|y l]]; simpl in *; try lia.
  - simpl. destruct l'; [done|]. by rewrite decide_False.
Qed.

Lemma expunge_strip_leading (l : list R) : expunge (strip_leading l) = expunge l.
Proof.
  induction l as [|x l IH]; [done|].
  destruct l as [|y l]; [done|].
  change (strip_leading (x :: y :: l))
    with (if decide (x = zero) then strip_leading (y :: l) else x :: y :: l).
  destruct (decide (x = zero)) as [Hx|Hx]; [|done].
  rewrite IH. simpl. by rewrite (decide_True _ _ Hx).
Qed.

Lemma length_strip_leading (l : list R) :
  (length (strip_leading l) <= length l)%nat.
Proof.
  induction l as [|x l IH]; [done|].
  destruct l as [|y l]; [done|].
  change (strip_leading (x :: y :: l))
    with (if decide (x = zero) then strip_leading (y :: l) else x :: y :: l).
  destruct (decide (x = zero)); simpl in *; lia.
Qed.

Lemma strip_leading_cons (x : R) (l : list R) : strip_leading (x :: l) <> [].
Proof.
  revert x. induction l as [|y l IH]; intros x; [done|].
  change (strip_leading (x :: y :: l))
    with (if decide (x = zero) then strip_leading (y :: l) else x :: y :: l).
  destruct (decide (x = zero)); [apply IH|done].
Qed.

(** What [__divmod__] builds from the remainder list. *)
Lemma init_stripped (l : list R) :
  Polynomial_init (match strip_leading l with
                   | [] => [zero]
                   | _ => strip_leading l
                   end) [] = Ok (init_dense l).
Proof.
  destruct (strip_leading l) as [|x s] eqn:Hs.
  - destruct l as [|y l]; [|by apply strip_leading_cons in Hs].
    simpl. unfold init_dense. simpl. by rewrite decide_True.
  - rewrite init_list by done. f_equal. unfold init_dense.
    by rewrite <- Hs, expunge_strip_leading.
Qed.

Lemma init_normal_list (l : list R) :
  length l = 1%nat \/ (exists x l', l = x :: l' /\ x <> zero) ->
  Polynomial_init (strip_leading l) [] = Ok (MkPolynomial l).
Proof.
  intros Hl. rewrite strip_leading_normal by (destruct Hl; [left; lia|by right]).
  destruct Hl as [Hl|(x & l' & -> & Hx)].
  - destruct l as [|x [|y l]]; try done. simpl. unfold init_dense. simpl.
    by destruct (decide (x = zero)) as [->|].
  - simpl. unfold init_dense. by rewrite expunge_nonzero.
Qed.

Lemma sum_to_only_first (n : nat) (f : nat -> R) :
  (forall i, (0 < i)%nat -> f i = zero) -> sum_to (S n) f = f O.
Proof.
  intros Hf. rewrite sum_to_first.
  rewrite sum_to_zero by (intros; apply Hf; lia). apply add_zero_r.
Qed.

Lemma is_zero_tuple_false (c : list R) : c <> [zero] -> is_zero_tuple c = false.
Proof.
  intros Hc. destruct c as [|x [|y c]]; try done. simpl.
  apply bool_decide_eq_false. congruence.
Qed.

(** [divmod] on normalized polynomials, over coefficients in which the
    division by the leading coefficient of the divisor is exact: it
    returns a quotient and a remainder that give the dividend back, and
    the remainder is shorter than the divisor, or the zero polynomial
    when the divisor is a constant. *)
Lemma divmod_exact (p d : Polynomial R) :
  normalized p ->
  normalized d ->
  coefficients d <> [zero] ->
  (forall lc, coefficients d !! O = Some lc ->
     forall r, exists q, quotient_coeff r lc = Ok q /\ mul q lc = r) ->
  exists q r prod,
    Polynomial_divmod p d = Ok (q, r) /\
    Polynomial_mul q d = Ok prod /\
    Polynomial_add prod r = p /\
    (1 <= degree d -> degree r < degree d) /\
    (degree d = 0 -> r = MkPolynomial [zero]).
Proof.
  intros Hp Hd Hdz Hexact.
  destruct p as [pc], d as [dc]. simpl in *.
  assert (Hdc : exists lc dc', dc = lc :: dc').
  { destruct (normalized_cases _ Hd) as [E|(x & l & E & _)]; simpl in E; eauto. }
  destruct Hdc as (lc & dc' & Edc).
  assert (Hpc : (1 <= length pc)%nat).
  { destruct (normalized_cases _ Hp) as [E|(x & l & E & _)]; simpl in E;
      rewrite E; simpl; lia. }
  assert (Hlc : dc !! O = Some lc) by (by rewrite Edc).
  assert (Hdl : (1 <= length dc)%nat) by (rewrite Edc; simpl; lia).
  unfold Polynomial_divmod, degree, Polynomial_len. simpl.
  rewrite is_zero_tuple_false by done.
  destruct (Z.of_nat (length pc) - 1 <? Z.of_nat (length dc) - 1) eqn:Hdeg.
  - (* the divisor is longer: quotient 0, remainder the dividend *)
    apply Z.ltb_lt in Hdeg.
    exists (init_dense [zero]), (MkPolynomial pc).
    destruct (reconstruct (init_dense [zero]) (MkPolynomial dc)
                (MkPolynomial pc) (MkPolynomial pc) Hp) as (prod & Hmul & Hadd).
    { intros k. unfold init_dense. simpl. rewrite decide_True by done. simpl.
      unfold conv_term. simpl.
      replace (at_index (reverse [zero]) 0) with zero by done.
      rewrite mul_zero_l.
      destruct (decide _); by rewrite !add_zero_l. }
    exists prod. split; [done|]. split; [done|]. split; [done|].
    simpl. split; [lia|]. intros Hd0. lia.
  - apply Z.ltb_ge in Hdeg.
    assert (Hle : (length dc <= length pc)%nat) by lia.
    assert (Hidx : py_index dc 0 = Ok lc) by exact (py_index_in_range dc O lc Hlc).
    rewrite Hidx. simpl.
    replace (Z.to_nat (Z.of_nat (length pc) - Z.of_nat (length dc) + 1))
      with (length pc - length dc + 1)%nat by lia.
    rewrite length_replicate.
    set (L := (length pc - length dc + 1)%nat).
    destruct (divide_loop_spec pc dc lc Hlc Hle (Hexact lc Hlc) L O
                (replicate L zero) pc)
      as (Q & Rm & Hrun & HlQ & HlR & _ & Hmain).
    { lia. }
    { split; [by rewrite length_replicate|]. split; [done|]. split.
      - intros s _. apply at_index_replicate.
      - intros t. simpl. by rewrite add_zero_r. }
    fold L in HlQ, Hmain. rewrite Hrun. simpl.
    (* the quotient list is already normal *)
    assert (HQ : length Q = 1%nat \/ exists x l', Q = x :: l' /\ x <> zero).
    { destruct (normalized_cases _ Hp) as [E|(x & l & E & Hx)]; simpl in E.
      - left. rewrite HlQ. unfold L. rewrite E. simpl. lia.
      - right. destruct Q as [|y Q']; [simpl in HlQ; lia|].
        exists y, Q'. split; [done|]. intros ->.
        specialize (Hmain O). rewrite E in Hmain at 1.
        unfold at_index at 1 in Hmain. simpl in Hmain.
        replace L with (S (L - 1)) in Hmain by lia.
        rewrite decide_True in Hmain by lia.
        rewrite sum_to_only_first in Hmain.
        + unfold div_term in Hmain. rewrite decide_True in Hmain by lia.
          unfold at_index at 1 in Hmain. simpl in Hmain.
          rewrite mul_zero_l, add_zero_r in Hmain. done.
        + intros i Hi. unfold div_term. by rewrite decide_False by lia. }
    rewrite (init_normal_list Q HQ). simpl.
    rewrite (strip_leading_normal Q)
      by (destruct HQ as [HQ|HQ]; [left; lia|by right]).
    rewrite HlQ, init_stripped. simpl.
    exists (MkPolynomial Q), (init_dense (drop L Rm)).
    destruct (reconstruct (MkPolynomial Q) (MkPolynomial dc)
                (init_dense (drop L Rm)) (MkPolynomial pc) Hp) as (prod & Hmul & Hadd).
    { intros k. cbn [coefficients]. rewrite power_coef_init_dense, HlQ.
      rewrite sum_to_reverse.
      destruct (decide (k < length pc)%nat) as [Hk|Hk].
      - rewrite power_coef_lt by done. rewrite Hmain.
        rewrite add_comm. f_equal.
        + apply sum_to_ext. intros s Hs. unfold conv_term, div_term.
          rewrite length_reverse.
          destruct (decide (s <= length pc - S k < s + length dc)%nat) as [Hin|Hout].
          * rewrite decide_True by (unfold L in *; lia).
            rewrite !at_index_reverse by (unfold L in *; lia).
            rewrite HlQ. f_equal; f_equal; unfold L in *; lia.
          * rewrite decide_False by (unfold L in *; lia). done.
        + destruct (decide (length pc - S k < L)%nat) as [Ht|Ht].
          * rewrite power_coef_ge; [done|]. rewrite length_drop. unfold L in *. lia.
          * rewrite power_coef_lt by (rewrite length_drop; unfold L in *; lia).
            unfold at_index. rewrite lookup_drop, length_drop.
            do 2 f_equal. unfold L in *. lia.
      - rewrite !power_coef_ge by (rewrite ?length_drop; unfold L in *; lia).
        rewrite sum_to_zero; [by rewrite add_zero_r|].
        intros s Hs. unfold conv_term. rewrite length_reverse.
        rewrite decide_False by (unfold L in *; lia). done. }
    exists prod. split; [done|]. split; [done|]. split; [done|].
    pose proof (length_init_dense (drop L Rm)) as Hlr.
    rewrite length_drop in Hlr.
    split.
    + intros Hd1. unfold L in *. lia.
    + intros Hd0. assert (drop L Rm = []) as ->.
      { apply length_zero_iff_nil. rewrite length_drop. unfold L. lia. }
      unfold init_dense. done.
Qed.

End Laws.

(** ** The two coefficient types satisfy the laws *)

Global Instance int_laws : CoeffLaws Z.
Proof. split; simpl; intros; lia. Qed.

Lemma xor_in_field (a b : Z) :
  0 <= a < 256 -> 0 <= b < 256 -> out_of_field (Z.lxor a b) = false.
Proof.
  intros Ha Hb. unfold out_of_field. apply orb_false_iff.
  assert (Hnn : 0 <= Z.lxor a b) by (apply Z.lxor_nonneg; lia).
  split; [|apply Z.ltb_ge; lia]. apply Z.ltb_ge.
  assert (Hlog : forall x, 0 <= x < 256 -> Z.log2 x < 8).
  { intros x Hx. destruct (decide (x = 0)) as [->|Hx0]; [done|].
    apply Z.log2_lt_pow2; lia. }
  destruct (decide (Z.lxor a b = 0)) as [->|Hz]; [lia|].
  assert (Z.lxor a b < 2 ^ 8); [|lia].
  apply Z.log2_lt_pow2; [lia|].
  pose proof (Z.log2_lxor a b ltac:(lia) ltac:(lia)).
  pose proof (Hlog a Ha). pose proof (Hlog b Hb). lia.
Qed.

Lemma GF256int_add_returns (a b : GF256int) :
  exists v, GF256int_add a b = Ok v /\ to_int v = Z.lxor (to_int a) (to_int b).
Proof.
  pose proof (to_int_range a). pose proof (to_int_range b).
  assert (Hx : out_of_field (Z.lxor (to_int a) (to_int b)) = false)
    by (apply xor_in_field; lia).
  exists (MkGF256int _ Hx). split; [|done].
  unfold GF256int_add. apply GF256int_new_ok.
Qed.

(** The operators that the polynomial code applies to field elements
    never raise: the coefficient operations are what they return. *)
Lemma GF256int_add_total (a b : GF256int) : GF256int_add a b = Ok (add a b).
Proof.
  destruct (GF256int_add_returns a b) as (v & Hv & _).
  unfold add. simpl. by rewrite Hv.
Qed.

Lemma GF256int_mul_total (a b : GF256int) : GF256int_mul a b = Ok (mul a b).
Proof.
  destruct (GF256int_mul_returns a b) as (v & Hv).
  unfold mul. simpl. by rewrite Hv.
Qed.

Lemma to_int_add (a b : GF256int) :
  to_int (add a b) = Z.lxor (to_int a) (to_int b).
Proof.
  destruct (GF256int_add_returns a b) as (v & Hv & Hval).
  simpl. by rewrite Hv.
Qed.

Lemma to_int_sub (a b : GF256int) :
  to_int (sub a b) = Z.lxor (to_int a) (to_int b).
Proof. apply to_int_add. Qed.

Global Instance GF256int_laws : CoeffLaws GF256int.
Proof.
  split.
  - intros a b. apply GF256int_eq. rewrite !to_int_add. apply Z.lxor_comm.
  - intros a b c. apply GF256int_eq. rewrite !to_int_add. by rewrite Z.lxor_assoc.
  - intros a. apply GF256int_eq. rewrite to_int_add. apply Z.lxor_0_r.
  - intros a b. apply GF256int_eq. rewrite to_int_add, to_int_sub.
    by rewrite Z.lxor_assoc, Z.lxor_nilpotent, Z.lxor_0_r.
  - intros a. done.
Qed.

Lemma divides_back_all (r lc : GF256int) : divides_back r lc = true.
Proof. revert r lc. apply forall_field2. vm_compute. reflexivity. Qed.

Lemma GF256int_quotient_exact (lc : GF256int) :
  lc <> GF0 ->
  forall r, exists q, quotient_coeff r lc = Ok q /\ mul q lc = r.
Proof.
  intros Hlc r. pose proof (divides_back_all r lc) as H. unfold divides_back in H.
  apply orb_true_iff in H as [H|H].
  - exfalso. apply Hlc, GF256int_eq. simpl. lia.
  - destruct (quotient_coeff r lc) as [q|]; [|done].
    exists q. split; [done|]. apply GF256int_eq. lia.
Qed.

Lemma int_quotient_exact (lc : Z) :
  lc = 1 \/ lc = -1 ->
  forall r, exists q, quotient_coeff r lc = Ok q /\ mul q lc = r.
Proof.
  intros Hlc r. exists (r / lc). unfold quotient_coeff. simpl. unfold int_floordiv.
  destruct Hlc as [-> | ->]; simpl.
  - split; [done|]. rewrite Z.div_1_r. lia.
  - split; [done|].
    rewrite <- (Z.div_unique r (-1) (- r) 0); lia.
Qed.

Lemma normalized_head {R} `{CoeffLaws R} (d : Polynomial R) (lc : R) :
  normalized d -> coefficients d <> [zero] -> coefficients d !! O = Some lc ->
  lc <> zero.
Proof.
  intros Hd Hz Hlc. destruct (normalized_cases d Hd) as [E|(x & l & E & Hx)]; [done|].
  rewrite E in Hlc. simpl in Hlc. congruence.
Qed.

(** ** Construction and division *)

(** The dense form and the form without arguments build normalized
    polynomials; an empty or all-zero dense input gives the single
    coefficient 0. *)
Lemma dense_construction_normalized {R} `{CoeffLaws R} (coefficients : list R) :
  exists p, Polynomial_init coefficients [] = Ok p /\ normalized p /\
            (Forall (fun c => c = zero) coefficients -> p = MkPolynomial [zero]).
Proof.
  destruct coefficients as [|x l].
  - exists (MkPolynomial [zero]). split; [done|]. split; [|done].
    apply (normalized_init_dense []).
  - exists (init_dense (x :: l)). split; [done|]. split; [apply normalized_init_dense|].
    intros Hall. unfold init_dense. f_equal.
    assert (expunge (x :: l) = []) as ->; [|done].
    induction (x :: l) as [|y l' IH]; [done|].
    apply Forall_cons in Hall as [-> Hall]. simpl. rewrite decide_True by done. auto.
Qed.

(** C2. The sparse form does not normalize: [Polynomial(x1=0)] keeps the
    two coefficients [(0, 0)], with a leading zero and [degree()] 1, where
    the dense form on the same coefficients gives [(0,)]. *)
Theorem sparse_construction_keeps_leading_zero :
  Polynomial_init ([] : list Z) [("x1", 0)] = Ok (MkPolynomial [0; 0]) /\
  ~ normalized (MkPolynomial [0; 0] : Polynomial Z) /\
  degree (MkPolynomial [0; 0] : Polynomial Z) = 1 /\
  Polynomial_init [0; 0] [] = Ok (MkPolynomial [0] : Polynomial Z).
Proof.
  split; [reflexivity|]. split; [|split; reflexivity].
  unfold normalized. simpl. discriminate.
Qed.

(** The second example of the docstring of [__init__]:
    [Polynomial(x5=5, x9=4, x0=2)] is [4x^9 + 5x^5 + 2]. *)
Example sparse_docstring :
  Polynomial_init ([] : list Z) [("x5", 5); ("x9", 4); ("x0", 2)]
  = Ok (MkPolynomial [4; 0; 0; 0; 5; 0; 0; 0; 0; 2]).
Proof. reflexivity. Qed.

(** C3. The sparse form takes as highest power the keyword that sorts
    last as a string.  [Polynomial(x9=1, x10=2)] is sized to power 9 and
    writes the coefficient of [x^10] at index -1, the constant term;
    [Polynomial(x9=1, x100=2)] raises IndexError. *)
Theorem sparse_construction_sorts_keywords_as_strings :
  sorted_desc ["x9"; "x10"] = ["x9"; "x10"] /\
  Polynomial_init ([] : list Z) [("x9", 1); ("x10", 2)]
  = Ok (MkPolynomial [1; 0; 0; 0; 0; 0; 0; 0; 0; 2]) /\
  Polynomial_init ([] : list Z) [("x9", 1); ("x10", 2)]
  <> Ok (MkPolynomial [2; 1; 0; 0; 0; 0; 0; 0; 0; 0; 0]) /\
  Polynomial_init ([] : list Z) [("x9", 1); ("x100", 2)] = Raise IndexError.
Proof. repeat split; try reflexivity. discriminate. Qed.

(** C1, over the integers: [x // 2] and [x % 2] are both the zero
    polynomial, and [0 * 2 + 0] is not [x]. *)
Lemma divmod_loses_dividend_over_integers :
  let p : Polynomial Z := MkPolynomial [1; 0] in
  let d : Polynomial Z := MkPolynomial [2] in
  normalized p /\ normalized d /\ coefficients d <> [0] /\
  Polynomial_floordiv p d = Ok (MkPolynomial [0]) /\
  Polynomial_mod p d = Ok (MkPolynomial [0]) /\
  Polynomial_mul (MkPolynomial [0]) d = Ok (MkPolynomial [0]) /\
  Polynomial_eq (Polynomial_add (MkPolynomial [0]) (MkPolynomial [0])) p = false.
Proof. repeat split; try reflexivity. discriminate. Qed.

(** The dividend of the identity has to be normalized as well: the
    sparse form can build [(0, 1)], and no sum is equal to it. *)
Example divmod_of_denormalized_dividend :
  let p := field_poly [0; 1] in
  let d := field_poly [1] in
  Polynomial_divmod p d = Ok (field_poly [1], field_poly [1]) /\
  Polynomial_mul (field_poly [1]) d = Ok (field_poly [1]) /\
  Polynomial_add (field_poly [1]) (field_poly [1]) = field_poly [0].
Proof. repeat split; vm_compute; reflexivity. Qed.

Lemma divmod_parts {R} `{Coeff R} (p d q r : Polynomial R) :
  Polynomial_divmod p d = Ok (q, r) ->
  Polynomial_floordiv p d = Ok q /\ Polynomial_mod p d = Ok r.
Proof. intros E. unfold Polynomial_floordiv, Polynomial_mod. by rewrite E. Qed.

(** C1. For a normalized dividend [p] and a normalized nonzero divisor
    [d], [(p // d) * d + (p % d) == p] over GF(256), and over the integers
    when the leading coefficient of [d] is 1 or -1. *)
Theorem divmod_gives_back_dividend :
  (forall p d : Polynomial GF256int,
     normalized p -> normalized d -> coefficients d <> [GF0] ->
     exists q r prod,
       Polynomial_floordiv p d = Ok q /\
       Polynomial_mod p d = Ok r /\
       Polynomial_mul q d = Ok prod /\
       Polynomial_eq (Polynomial_add prod r) p = true) /\
  (forall p d : Polynomial Z,
     normalized p -> normalized d ->
     (head (coefficients d) = Some 1 \/ head (coefficients d) = Some (-1)) ->
     exists q r prod,
       Polynomial_floordiv p d = Ok q /\
       Polynomial_mod p d = Ok r /\
       Polynomial_mul q d = Ok prod /\
       Polynomial_eq (Polynomial_add prod r) p = true).
Proof.
  split.
  - intros p d Hp Hd Hz.
    destruct (divmod_exact p d Hp Hd Hz) as (q & r & prod & Hdiv & Hmul & Hadd & _).
    { intros lc Hlc. apply GF256int_quotient_exact.
      exact (normalized_head d lc Hd Hz Hlc). }
    destruct (divmod_parts _ _ _ _ Hdiv) as [Hq Hr].
    exists q, r, prod. repeat split; try done.
    unfold Polynomial_eq. apply bool_decide_eq_true. by rewrite Hadd.
  - intros p d Hp Hd Hlc.
    assert (Hz : coefficients d <> [zero]).
    { intros E. rewrite E in Hlc. simpl in Hlc. destruct Hlc; congruence. }
    destruct (divmod_exact p d Hp Hd Hz) as (q & r & prod & Hdiv & Hmul & Hadd & _).
    { intros lc Hl. apply int_quotient_exact.
      rewrite <- head_lookup in Hl. rewrite Hl in Hlc. destruct Hlc; [left|right]; congruence. }
    destruct (divmod_parts _ _ _ _ Hdiv) as [Hq Hr].
    exists q, r, prod. repeat split; try done.
    unfold Polynomial_eq. apply bool_decide_eq_true. by rewrite Hadd.
Qed.

(** The theorem on [x^3 + 2x^2 + 3x + 4] by [3x + 7] over GF(256) and on
    [x^2 + 1] by [x + 1] over the integers. *)
Lemma divmod_gives_back_dividend_on_examples :
  let p := field_poly [1; 2; 3; 4] in
  let d := field_poly [3; 7] in
  let pz : Polynomial Z := MkPolynomial [1; 0; 1] in
  let dz : Polynomial Z := MkPolynomial [1; 1] in
  (normalized p /\ normalized d /\ coefficients d <> [GF0] /\
   exists q r prod,
     Polynomial_floordiv p d = Ok q /\
     Polynomial_mod p d = Ok r /\
     Polynomial_mul q d = Ok prod /\
     Polynomial_eq (Polynomial_add prod r) p = true) /\
  (normalized pz /\ normalized dz /\
   (head (coefficients dz) = Some 1 \/ head (coefficients dz) = Some (-1)) /\
   exists q r prod,
     Polynomial_floordiv pz dz = Ok q /\
     Polynomial_mod pz dz = Ok r /\
     Polynomial_mul q dz = Ok prod /\
     Polynomial_eq (Polynomial_add prod r) pz = true).
Proof.
  intros p d pz dz.
  assert (Hp : normalized p) by (vm_compute; reflexivity).
  assert (Hd : normalized d) by (vm_compute; reflexivity).
  assert (Hz : coefficients d <> [GF0]) by (vm_compute; discriminate).
  assert (Hpz : normalized pz) by reflexivity.
  assert (Hdz : normalized dz) by reflexivity.
  assert (Hlc : head (coefficients dz) = Some 1 \/ head (coefficients dz) = Some (-1))
    by (left; reflexivity).
  split.
  - split; [exact Hp|]. split; [exact Hd|]. split; [exact Hz|].
    exact (proj1 divmod_gives_back_dividend p d Hp Hd Hz).
  - split; [exact Hpz|]. split; [exact Hdz|]. split; [exact Hlc|].
    exact (proj2 divmod_gives_back_dividend pz dz Hpz Hdz Hlc).
Defined.

(** The scenario of the specification over the integers: [x^2 + 1] by
    [x + 1] is [x - 1] with remainder [2]. *)
Example divmod_integer_scenario :
  Polynomial_divmod (MkPolynomial [1; 0; 1] : Polynomial Z) (MkPolynomial [1; 1])
  = Ok (MkPolynomial [1; -1], MkPolynomial [2]).
Proof. reflexivity. Qed.

(** C7, as stated: the remainder of [1] by the constant [1] is the zero
    polynomial [(0,)], of degree 0, which is not below the degree 0 of the
    divisor. *)
Lemma remainder_degree_not_below_constant_divisor :
  let p := field_poly [1] in
  let d := field_poly [1] in
  normalized p /\ normalized d /\ coefficients d <> [GF0] /\
  Polynomial_mod p d = Ok (field_poly [0]) /\
  ~ (degree (field_poly [0]) < degree d).
Proof.
  repeat split; try (vm_compute; reflexivity).
  - intros E. vm_compute in E. discriminate E.
  - vm_compute. discriminate.
Qed.

(** With a dividend that is not normalized the remainder can be as long
    as the divisor. *)
Example remainder_of_denormalized_dividend :
  let p := field_poly [0; 1; 0] in
  let d := field_poly [1; 1] in
  Polynomial_mod p d = Ok (field_poly [1; 1]) /\
  degree (field_poly [1; 1]) = degree d.
Proof. repeat split; vm_compute; reflexivity. Qed.

(** C7. For a normalized dividend [p] and a normalized nonzero divisor [d]
    over GF(256), [p % d] has a degree below that of [d] when [d] has
    degree 1 or more, and is the zero polynomial [(0,)], of degree 0, when
    [d] is a constant. *)
Theorem remainder_degree_below_divisor (p d : Polynomial GF256int) :
  normalized p -> normalized d -> coefficients d <> [GF0] ->
  exists r,
    Polynomial_mod p d = Ok r /\
    (1 <= degree d -> degree r < degree d) /\
    (degree d = 0 -> r = MkPolynomial [GF0] /\ degree r = 0).
Proof.
  intros Hp Hd Hz.
  destruct (divmod_exact p d Hp Hd Hz) as (q & r & prod & Hdiv & _ & _ & Hdeg & Hconst).
  { intros lc Hlc. apply GF256int_quotient_exact.
    exact (normalized_head d lc Hd Hz Hlc). }
  destruct (divmod_parts _ _ _ _ Hdiv) as [_ Hr].
  exists r. split; [done|]. split; [done|].
  intros Hd0. rewrite (Hconst Hd0). done.
Qed.

(** The theorem on [x^3 + 2x^2 + 3x + 4] by [3x + 7]. *)
Lemma remainder_degree_below_divisor_on_example :
  let p := field_poly [1; 2; 3; 4] in
  let d := field_poly [3; 7] in
  normalized p /\ normalized d /\ coefficients d <> [GF0] /\
  exists r,
    Polynomial_mod p d = Ok r /\
    (1 <= degree d -> degree r < degree d) /\
    (degree d = 0 -> r = MkPolynomial [GF0] /\ degree r = 0).
Proof.
  intros p d.
  assert (Hp : normalized p) by (vm_compute; reflexivity).
  assert (Hd : normalized d) by (vm_compute; reflexivity).
  assert (Hz : coefficients d <> [GF0]) by (vm_compute; discriminate).
  split; [exact Hp|]. split; [exact Hd|]. split; [exact Hz|].
  exact (remainder_degree_below_divisor p d Hp Hd Hz).
Defined.

(** ** Further lemmas on the field: the tables, the ring laws *)

(** ** The two tables *)

Lemma log_then_exp_all (a : GF256int) : log_then_exp a = true.
Proof. revert a. apply forall_field. vm_compute. reflexivity. Qed.

Lemma exp_then_log_all (k : nat) : (k < 255)%nat -> exp_then_log k = true.
Proof.
  assert (H : forallb exp_then_log (seq 0 255) = true) by (vm_compute; reflexivity).
  rewrite forallb_forall in H. intros Hk. apply H, in_seq. lia.
Qed.

Lemma log_exp (a : GF256int) :
  to_int a <> 0 ->
  exists x, py_index logtable (to_int a) = Ok (Some x) /\
            0 <= x < 255 /\
            py_index exptable x = Ok (to_int a).
Proof.
  intros Ha. pose proof (log_then_exp_all a) as H. unfold log_then_exp in H.
  apply orb_true_iff in H as [H|H]; [lia|].
  destruct (py_index logtable (to_int a)) as [[x|]|]; try done.
  apply andb_true_iff in H as [Hr He]. apply andb_true_iff in Hr as [H0 H255].
  apply Z.leb_le in H0. apply Z.ltb_lt in H255.
  destruct (py_index exptable x) as [e|] eqn:Ee; [|done].
  apply Z.eqb_eq in He.
  exists x. split; [done|]. split; [lia|]. by rewrite Ee, He.
Qed.

Lemma exp_log (z : Z) :
  0 <= z < 255 ->
  exists v : GF256int,
    py_index exptable z = Ok (to_int v) /\
    to_int v <> 0 /\
    py_index logtable (to_int v) = Ok (Some z).
Proof.
  intros Hz. pose proof (exp_then_log_all (Z.to_nat z) ltac:(lia)) as H.
  unfold exp_then_log in H. rewrite Z2Nat.id in H by lia.
  destruct (py_index exptable z) as [e|]; [|done].
  apply andb_true_iff in H as [Hr Hl]. apply andb_true_iff in Hr as [H1 H255].
  apply Z.leb_le in H1. apply Z.leb_le in H255.
  assert (He : out_of_field e = false).
  { unfold out_of_field. apply orb_false_iff. split; [apply Z.ltb_ge|apply Z.ltb_ge]; lia. }
  exists (MkGF256int e He). simpl. split; [done|]. split; [lia|].
  destruct (py_index logtable e) as [[z'|]|]; try done.
  apply Z.eqb_eq in Hl. by subst z'.
Qed.

Lemma log_of_spec (a : GF256int) :
  to_int a <> 0 ->
  py_index logtable (to_int a) = Ok (Some (log_of a)) /\
  0 <= log_of a < 255 /\
  py_index exptable (log_of a) = Ok (to_int a).
Proof.
  intros Ha. destruct (log_exp a Ha) as (x & Hx & Hr & He).
  unfold log_of. by rewrite Hx.
Qed.

Lemma log_of_inj (a b : GF256int) :
  to_int a <> 0 -> to_int b <> 0 -> log_of a = log_of b -> a = b.
Proof.
  intros Ha Hb E.
  destruct (log_of_spec a Ha) as (_ & _ & Ea).
  destruct (log_of_spec b Hb) as (_ & _ & Eb).
  rewrite E in Ea. apply GF256int_eq. congruence.
Qed.

(** ** Multiplication through the logarithms *)

Lemma mul_zero_operand (a b : GF256int) :
  to_int a = 0 \/ to_int b = 0 -> GF256int_mul a b = Ok GF0.
Proof.
  intros H. unfold GF256int_mul.
  assert (((to_int a =? 0) || (to_int b =? 0)) = true) as ->; [|done].
  apply orb_true_iff. destruct H as [H|H]; [left|right]; by apply Z.eqb_eq.
Qed.

Lemma mul_by_logs (a b : GF256int) :
  to_int a <> 0 -> to_int b <> 0 ->
  exists v : GF256int,
    GF256int_mul a b = Ok v /\
    to_int v <> 0 /\
    log_of v = (log_of a + log_of b) mod 255 /\
    py_index exptable ((log_of a + log_of b) mod 255) = Ok (to_int v).
Proof.
  intros Ha Hb.
  destruct (log_of_spec a Ha) as (La & _ & _).
  destruct (log_of_spec b Hb) as (Lb & _ & _).
  destruct (exp_log ((log_of a + log_of b) mod 255)) as (v & Hv & Hv0 & Hlog).
  { apply Z.mod_pos_bound. lia. }
  exists v. unfold GF256int_mul.
  assert (((to_int a =? 0) || (to_int b =? 0)) = false) as ->.
  { apply orb_false_iff. split; by apply Z.eqb_neq. }
  rewrite La, Lb. simpl. rewrite Hv. simpl.
  split; [apply GF256int_new_to_int|]. split; [done|]. split; [|done].
  unfold log_of at 1. by rewrite Hlog.
Qed.

Lemma to_int_mul_zero (a b : GF256int) :
  to_int (mul a b) = 0 <-> to_int a = 0 \/ to_int b = 0.
Proof.
  split.
  - intros H. destruct (decide (to_int a = 0)) as [|Ha]; [by left|].
    destruct (decide (to_int b = 0)) as [|Hb]; [by right|].
    destruct (mul_by_logs a b Ha Hb) as (v & Hv & Hv0 & _).
    unfold mul in H. simpl in H. rewrite Hv in H. done.
  - intros H. unfold mul. simpl. by rewrite (mul_zero_operand a b H).
Qed.

Lemma log_of_mul (a b : GF256int) :
  to_int a <> 0 -> to_int b <> 0 ->
  log_of (mul a b) = (log_of a + log_of b) mod 255.
Proof.
  intros Ha Hb. destruct (mul_by_logs a b Ha Hb) as (v & Hv & _ & Hl & _).
  unfold mul. simpl. by rewrite Hv.
Qed.

Lemma GF_mul_comm (a b : GF256int) : mul a b = mul b a.
Proof.
  destruct (decide (to_int a = 0)) as [Ha|Ha].
  { unfold mul. simpl. by rewrite !mul_zero_operand by auto. }
  destruct (decide (to_int b = 0)) as [Hb|Hb].
  { unfold mul. simpl. by rewrite !mul_zero_operand by auto. }
  apply log_of_inj.
  - rewrite to_int_mul_zero. tauto.
  - rewrite to_int_mul_zero. tauto.
  - rewrite !log_of_mul by done. f_equal. lia.
Qed.

Lemma GF_mul_zero_l (a : GF256int) : mul GF0 a = GF0.
Proof. done. Qed.

Lemma GF_mul_zero_r (a : GF256int) : mul a GF0 = GF0.
Proof. by rewrite GF_mul_comm. Qed.

Lemma GF_mul_assoc (a b c : GF256int) : mul a (mul b c) = mul (mul a b) c.
Proof.
  assert (Hz : forall x : GF256int, to_int x = 0 -> x = GF0).
  { intros x Hx. by apply GF256int_eq. }
  destruct (decide (to_int a = 0)) as [Ha|Ha].
  { rewrite (Hz a Ha). by rewrite !GF_mul_zero_l. }
  destruct (decide (to_int b = 0)) as [Hb|Hb].
  { rewrite (Hz b Hb). by rewrite GF_mul_zero_l, GF_mul_zero_r, GF_mul_zero_l. }
  destruct (decide (to_int c = 0)) as [Hc|Hc].
  { rewrite (Hz c Hc). by rewrite !GF_mul_zero_r. }
  assert (Hab : to_int (mul a b) <> 0) by (rewrite to_int_mul_zero; tauto).
  assert (Hbc : to_int (mul b c) <> 0) by (rewrite to_int_mul_zero; tauto).
  apply log_of_inj.
  - rewrite to_int_mul_zero. tauto.
  - rewrite to_int_mul_zero. tauto.
  - rewrite !log_of_mul by done.
    rewrite Z.add_mod_idemp_r, Z.add_mod_idemp_l by lia. f_equal. lia.
Qed.

Lemma log_of_one : log_of GF1 = 0.
Proof. reflexivity. Qed.

Lemma GF_mul_one_r (a : GF256int) : mul a GF1 = a.
Proof.
  destruct (decide (to_int a = 0)) as [Ha|Ha].
  { assert (a = GF0) as -> by (by apply GF256int_eq). done. }
  apply log_of_inj; [rewrite to_int_mul_zero; simpl; lia|done|].
  rewrite log_of_mul by done. rewrite log_of_one, Z.add_0_r.
  apply Z.mod_small. by destruct (log_of_spec a Ha) as (_ & ? & _).
Qed.

(** ** The reference multiplication is additive in its first operand *)

Lemma times_x_linear_all (p p' : Z) :
  0 <= p < 256 -> 0 <= p' < 256 ->
  0 <= times_x p < 256 /\
  times_x (Z.lxor p p') = Z.lxor (times_x p) (times_x p').
Proof.
  intros Hp Hp'.
  assert (H : forallb (fun i => forallb (fun j => times_x_linear (Z.of_nat i) (Z.of_nat j))
                                 (seq 0 256)) (seq 0 256) = true)
    by (vm_compute; reflexivity).
  rewrite forallb_forall in H. specialize (H (Z.to_nat p) ltac:(apply in_seq; lia)).
  rewrite forallb_forall in H. specialize (H (Z.to_nat p') ltac:(apply in_seq; lia)).
  rewrite !Z2Nat.id in H by lia. unfold times_x_linear in H.
  apply andb_true_iff in H as [H1 H2]. apply andb_true_iff in H1 as [H0 H1].
  apply Z.leb_le in H0. apply Z.ltb_lt in H1. apply Z.eqb_eq in H2. lia.
Qed.

Lemma multiply_loop_step (fuel : nat) (p r b : Z) :
  b <> 0 ->
  multiply_loop (S fuel) p r b =
  multiply_loop fuel (times_x p)
    (if Z.land b 1 =? 0 then r else Z.lxor r p) (Z.shiftr b 1).
Proof. intros Hb. simpl. apply Z.eqb_neq in Hb. by rewrite Hb. Qed.

Lemma lxor_swap (r p r' p' : Z) :
  Z.lxor (Z.lxor r r') (Z.lxor p p') = Z.lxor (Z.lxor r p) (Z.lxor r' p').
Proof.
  rewrite <- !Z.lxor_assoc. f_equal.
  rewrite !Z.lxor_assoc. f_equal. apply Z.lxor_comm.
Qed.

Lemma multiply_loop_xor (fuel : nat) :
  forall p p' r r' b v v',
    0 <= p < 256 -> 0 <= p' < 256 ->
    multiply_loop fuel p r b = Some v ->
    multiply_loop fuel p' r' b = Some v' ->
    multiply_loop fuel (Z.lxor p p') (Z.lxor r r') b = Some (Z.lxor v v').
Proof.
  induction fuel as [|fuel IH]; intros p p' r r' b v v' Hp Hp' Hv Hv'.
  - simpl in *. destruct (b =? 0); congruence.
  - destruct (decide (b = 0)) as [->|Hb].
    + simpl in *. congruence.
    + rewrite multiply_loop_step in * by done.
      destruct (times_x_linear_all p p' Hp Hp') as [Hr Hl].
      destruct (times_x_linear_all p' p Hp' Hp) as [Hr' _].
      rewrite Hl.
      replace (if Z.land b 1 =? 0 then Z.lxor r r' else Z.lxor (Z.lxor r r') (Z.lxor p p'))
        with (Z.lxor (if Z.land b 1 =? 0 then r else Z.lxor r p)
                     (if Z.land b 1 =? 0 then r' else Z.lxor r' p')).
      * by apply IH.
      * destruct (Z.land b 1 =? 0); [done|]. symmetry. apply lxor_swap.
Qed.

Lemma mul_is_multiply (a b : GF256int) :
  multiply_loop 8 (to_int a) 0 (to_int b) = Some (to_int (mul a b)).
Proof.
  pose proof (agree_on_all a b) as H. unfold agree_on, GF256int_multiply in H.
  rewrite (GF256int_mul_total a b) in H.
  destruct (multiply_loop 8 (to_int a) 0 (to_int b)) as [x|]; [|done].
  simpl in H.
  destruct (GF256int_new x) as [w|] eqn:Hw; [|done].
  assert (x = to_int w) as ->.
  { unfold GF256int_new in Hw. revert Hw.
    generalize (eq_refl (out_of_field x)).
    generalize (out_of_field x) at 2 3. intros [] E; [done|].
    by intros [= <-]. }
  apply Z.eqb_eq in H. f_equal. symmetry. exact H.
Qed.

Lemma GF_mul_add_l (a a' b : GF256int) :
  mul (add a a') b = add (mul a b) (mul a' b).
Proof.
  apply GF256int_eq. rewrite to_int_add.
  pose proof (mul_is_multiply a b) as H1.
  pose proof (mul_is_multiply a' b) as H2.
  pose proof (mul_is_multiply (add a a') b) as H3.
  rewrite to_int_add in H3.
  pose proof (to_int_range a). pose proof (to_int_range a').
  pose proof (multiply_loop_xor 8 (to_int a) (to_int a') 0 0 (to_int b) _ _
                ltac:(lia) ltac:(lia) H1 H2) as H4.
  change (Z.lxor 0 0) with 0 in H4. congruence.
Qed.

Lemma GF_mul_add_r (a b c : GF256int) :
  mul a (add b c) = add (mul a b) (mul a c).
Proof. by rewrite GF_mul_comm, GF_mul_add_l, !(GF_mul_comm a). Qed.

(** Replace the calls of [__add__] and [__mul__] by the values they
    return. *)
Ltac gf_values :=
  repeat first [ rewrite GF256int_add_total
               | rewrite GF256int_mul_total
               | progress cbn [mbind result_bind] ].

(** ** Addition and multiplication in the field *)

(** X1. [+] on field elements never raises and is XOR of the values; it
    is commutative and associative, 0 is neutral, every element is its own
    opposite ([a + a == 0], [-a == a]), and subtraction undoes addition. *)
Theorem GF256int_add_is_xor_group (a b c : GF256int) :
  (exists s, GF256int_add a b = Ok s /\ to_int s = Z.lxor (to_int a) (to_int b)) /\
  GF256int_add a b = GF256int_add b a /\
  (GF256int_add a b ≫= fun s => GF256int_add s c)
  = (GF256int_add b c ≫= fun s => GF256int_add a s) /\
  GF256int_add a GF0 = Ok a /\
  GF256int_add a a = Ok GF0 /\
  GF256int_neg a = a /\
  (GF256int_add a b ≫= fun s => GF256int_sub s b) = Ok a.
Proof.
  split; [apply GF256int_add_returns|].
  unfold GF256int_sub. gf_values.
  split; [by rewrite add_comm|].
  split; [by rewrite add_assoc|].
  split; [f_equal; exact (add_zero_r a)|].
  split; [f_equal; apply GF256int_eq; rewrite to_int_add; apply Z.lxor_nilpotent|].
  split; [done|].
  f_equal. apply GF256int_eq. rewrite !to_int_add.
  by rewrite Z.lxor_assoc, Z.lxor_nilpotent, Z.lxor_0_r.
Qed.

(** X2. [*] on field elements never raises; it is commutative and
    associative, 1 is neutral, and a product is 0 exactly when one of the
    factors is. *)
Theorem GF256int_mul_laws (a b c : GF256int) :
  (exists p, GF256int_mul a b = Ok p /\
             (to_int p = 0 <-> to_int a = 0 \/ to_int b = 0)) /\
  GF256int_mul a b = GF256int_mul b a /\
  (GF256int_mul a b ≫= fun p => GF256int_mul p c)
  = (GF256int_mul b c ≫= fun p => GF256int_mul a p) /\
  GF256int_mul a GF1 = Ok a.
Proof.
  split.
  { exists (mul a b). split; [apply GF256int_mul_total|apply to_int_mul_zero]. }
  gf_values.
  split; [by rewrite GF_mul_comm|].
  split; [by rewrite GF_mul_assoc|].
  by rewrite GF_mul_one_r.
Qed.

(** X3. Multiplication distributes over addition:
    [a * (b + c) == a * b + a * c]. *)
Theorem GF256int_mul_distributes (a b c : GF256int) :
  (GF256int_add b c ≫= fun s => GF256int_mul a s)
  = (GF256int_mul a b ≫= fun x => GF256int_mul a c ≫= fun y => GF256int_add x y).
Proof. gf_values. by rewrite GF_mul_add_r. Qed.

(** ** Inverse and division *)

Lemma inverse_value (a : GF256int) :
  to_int a <> 0 ->
  exists i : GF256int,
    GF256int_inverse a = Ok i /\ mul a i = GF1 /\ to_int i <> 0.
Proof.
  intros Ha. destruct (GF256int_inverse_returns a Ha) as (i & Hi & Hm).
  assert (Hone : mul a i = GF1).
  { unfold mul. simpl. by rewrite Hm. }
  exists i. split; [done|]. split; [done|].
  intros Hi0. assert (to_int (mul a i) = 0) as E by (apply to_int_mul_zero; auto).
  by rewrite Hone in E.
Qed.

Lemma inverse_unique (a b i : GF256int) :
  mul a i = GF1 -> mul a b = GF1 -> b = i.
Proof.
  intros Hi Hb.
  rewrite <- (GF_mul_one_r b), <- Hi, GF_mul_assoc, (GF_mul_comm b a), Hb.
  by rewrite GF_mul_comm, GF_mul_one_r.
Qed.

(** X4. For a nonzero [a], [a.inverse()] is nonzero, it is the only
    element whose product with [a] is 1, and its own inverse is [a]. *)
Theorem inverse_is_unique_and_involutive (a : GF256int) :
  to_int a <> 0 ->
  exists i : GF256int,
    GF256int_inverse a = Ok i /\
    to_int i <> 0 /\
    (forall b, GF256int_mul a b = Ok GF1 <-> b = i) /\
    GF256int_inverse i = Ok a.
Proof.
  intros Ha. destruct (inverse_value a Ha) as (i & Hi & Hm & Hi0).
  exists i. split; [done|]. split; [done|]. split.
  - intros b. rewrite GF256int_mul_total. split.
    + intros [= Hb]. by apply (inverse_unique a).
    + intros ->. by rewrite Hm.
  - destruct (inverse_value i Hi0) as (j & Hj & Hmj & _).
    rewrite Hj. f_equal. apply (inverse_unique i); [by rewrite GF_mul_comm|done].
Qed.

(** The theorem at the element 2. *)
Lemma inverse_is_unique_and_involutive_at_2 :
  to_int (element 2) <> 0 /\
  exists i : GF256int,
    GF256int_inverse (element 2) = Ok i /\
    to_int i <> 0 /\
    (forall b, GF256int_mul (element 2) b = Ok GF1 <-> b = i) /\
    GF256int_inverse i = Ok (element 2).
Proof.
  assert (H : to_int (element 2) <> 0) by (vm_compute; discriminate).
  split; [exact H | exact (inverse_is_unique_and_involutive (element 2) H)].
Defined.

(** X5. The method [__div__] undoes multiplication: for a nonzero [b],
    [a.__div__(b) * b == a] and [(a * b).__div__(b) == a]; [__rdiv__] is
    the same division with the operands swapped; with [b == 0] both
    methods raise ZeroDivisionError. *)
Theorem div_undoes_mul (a b : GF256int) :
  (to_int b <> 0 ->
   (GF256int_div a b ≫= fun q => GF256int_mul q b) = Ok a /\
   (GF256int_mul a b ≫= fun p => GF256int_div p b) = Ok a /\
   GF256int_rdiv b a = GF256int_div a b) /\
  (to_int b = 0 ->
   GF256int_div a b = Raise ZeroDivisionError /\
   GF256int_rdiv b a = Raise ZeroDivisionError).
Proof.
  split.
  - intros Hb. destruct (inverse_value b Hb) as (i & Hi & Hm & _).
    assert (Hd : forall x, GF256int_div x b = Ok (mul x i)).
    { intros x. unfold GF256int_div. rewrite GF256int_new_to_int. simpl.
      rewrite Hi. simpl. apply GF256int_mul_total. }
    unfold GF256int_rdiv. rewrite Hi. gf_values. rewrite !Hd. gf_values.
    split; [|split].
    + by rewrite <- GF_mul_assoc, (GF_mul_comm i b), Hm, GF_mul_one_r.
    + by rewrite <- GF_mul_assoc, Hm, GF_mul_one_r.
    + by rewrite GF_mul_comm.
  - intros Hb. assert (b = GF0) as -> by (by apply GF256int_eq). done.
Qed.

(** The theorem on [GF256int(7)] and the divisors 3 and 0. *)
Lemma div_undoes_mul_on_examples :
  (to_int (element 3) <> 0 /\
   (GF256int_div (element 7) (element 3) ≫= fun q => GF256int_mul q (element 3))
   = Ok (element 7) /\
   (GF256int_mul (element 7) (element 3) ≫= fun p => GF256int_div p (element 3))
   = Ok (element 7) /\
   GF256int_rdiv (element 3) (element 7) = GF256int_div (element 7) (element 3)) /\
  (to_int (element 0) = 0 /\
   GF256int_div (element 7) (element 0) = Raise ZeroDivisionError /\
   GF256int_rdiv (element 0) (element 7) = Raise ZeroDivisionError).
Proof.
  assert (H3 : to_int (element 3) <> 0) by (vm_compute; discriminate).
  assert (H0 : to_int (element 0) = 0) by reflexivity.
  split.
  - split; [exact H3|]. exact (proj1 (div_undoes_mul (element 7) (element 3)) H3).
  - split; [exact H0|]. exact (proj2 (div_undoes_mul (element 7) (element 0)) H0).
Defined.

(** ** Powers *)

Lemma pow_value (a : GF256int) (n : Z) :
  to_int a <> 0 ->
  exists v : GF256int,
    GF256int_pow a (PowInt n) = Ok v /\
    to_int v <> 0 /\
    log_of v = (log_of a * n) mod 255.
Proof.
  intros Ha. destruct (log_of_spec a Ha) as (La & _ & _).
  destruct (exp_log ((log_of a * n) mod 255)) as (v & Hv & Hv0 & Hlog).
  { apply Z.mod_pos_bound. lia. }
  exists v. unfold GF256int_pow. rewrite La. simpl. rewrite Hv. simpl.
  split; [apply GF256int_new_to_int|]. split; [done|].
  unfold log_of at 1. by rewrite Hlog.
Qed.

(** X6. For a nonzero [a] and regular integers [m] and [n]: [a ** 0] is
    1, [a ** 1] is [a], [a ** -1] is [a.inverse()],
    [a ** (m + n) == a ** m * a ** n], [(a ** m) ** n == a ** (m * n)],
    and the exponent only counts modulo 255. *)
Theorem pow_laws (a : GF256int) (m n : Z) :
  to_int a <> 0 ->
  GF256int_pow a (PowInt 0) = Ok GF1 /\
  GF256int_pow a (PowInt 1) = Ok a /\
  GF256int_pow a (PowInt (-1)) = GF256int_inverse a /\
  GF256int_pow a (PowInt (m + n))
  = (GF256int_pow a (PowInt m) ≫= fun x =>
     GF256int_pow a (PowInt n) ≫= fun y => GF256int_mul x y) /\
  (GF256int_pow a (PowInt m) ≫= fun x => GF256int_pow x (PowInt n))
  = GF256int_pow a (PowInt (m * n)) /\
  GF256int_pow a (PowInt (n + 255)) = GF256int_pow a (PowInt n).
Proof.
  intros Ha.
  destruct (log_of_spec a Ha) as (_ & Hla & _).
  assert (Hval : forall k, exists v, GF256int_pow a (PowInt k) = Ok v /\
                 to_int v <> 0 /\ log_of v = (log_of a * k) mod 255)
    by (intros k; by apply pow_value).
  assert (H1 : GF256int_pow a (PowInt 1) = Ok a).
  { destruct (Hval 1) as (v & -> & Hv0 & Hl). f_equal.
    apply log_of_inj; [done|done|]. rewrite Hl, Z.mul_1_r. by apply Z.mod_small. }
  assert (Hadd : forall j k, GF256int_pow a (PowInt (j + k))
            = (GF256int_pow a (PowInt j) ≫= fun x =>
               GF256int_pow a (PowInt k) ≫= fun y => GF256int_mul x y)).
  { intros j k. destruct (Hval (j + k)) as (v & -> & Hv0 & Hl).
    destruct (Hval j) as (x & -> & Hx0 & Hlx).
    destruct (Hval k) as (y & -> & Hy0 & Hly).
    gf_values. f_equal. apply log_of_inj; [done|rewrite to_int_mul_zero; tauto|].
    rewrite log_of_mul, Hl, Hlx, Hly by done.
    rewrite <- Z.add_mod by lia. f_equal. lia. }
  assert (H0 : GF256int_pow a (PowInt 0) = Ok GF1).
  { destruct (Hval 0) as (v & -> & Hv0 & Hl). f_equal.
    apply log_of_inj; [done|done|]. by rewrite Hl, Z.mul_0_r. }
  split; [done|]. split; [done|]. split; [|split; [apply Hadd|split]].
  - destruct (inverse_value a Ha) as (i & -> & Hm & _).
    destruct (Hval (-1)) as (v & Hv & Hv0 & Hl). rewrite Hv. f_equal.
    apply (inverse_unique a); [done|].
    pose proof (Hadd 1 (-1)) as E. rewrite H1, Hv in E.
    change (1 + -1) with 0 in E. rewrite H0 in E.
    revert E. gf_values. congruence.
  - destruct (Hval m) as (x & -> & Hx0 & Hlx). cbn [mbind result_bind].
    destruct (pow_value x n Hx0) as (y & -> & Hy0 & Hly).
    destruct (Hval (m * n)) as (v & -> & Hv0 & Hl). f_equal.
    apply log_of_inj; [done|done|]. rewrite Hly, Hl, Hlx.
    rewrite Z.mul_mod_idemp_l by lia. f_equal. lia.
  - destruct (Hval (n + 255)) as (v & -> & Hv0 & Hl).
    destruct (Hval n) as (w & -> & Hw0 & Hlw). f_equal.
    apply log_of_inj; [done|done|]. rewrite Hl, Hlw.
    rewrite Z.mul_add_distr_l, Z.add_mod by lia.
    rewrite Z.mod_mul by lia. rewrite Z.add_0_r. by rewrite Z.mod_mod by lia.
Qed.

(** The theorem at [GF256int(3)] with the exponents 5 and -7. *)
Lemma pow_laws_at_3 :
  to_int (element 3) <> 0 /\
  GF256int_pow (element 3) (PowInt 0) = Ok GF1 /\
  GF256int_pow (element 3) (PowInt 1) = Ok (element 3) /\
  GF256int_pow (element 3) (PowInt (-1)) = GF256int_inverse (element 3) /\
  GF256int_pow (element 3) (PowInt (5 + -7))
  = (GF256int_pow (element 3) (PowInt 5) ≫= fun x =>
     GF256int_pow (element 3) (PowInt (-7)) ≫= fun y => GF256int_mul x y) /\
  (GF256int_pow (element 3) (PowInt 5) ≫= fun x => GF256int_pow x (PowInt (-7)))
  = GF256int_pow (element 3) (PowInt (5 * -7)) /\
  GF256int_pow (element 3) (PowInt (-7 + 255)) = GF256int_pow (element 3) (PowInt (-7)).
Proof.
  assert (H : to_int (element 3) <> 0) by (vm_compute; discriminate).
  split; [exact H | exact (pow_laws (element 3) 5 (-7) H)].
Defined.

(** ** The tables and the generator *)

(** X7. The two tables are inverse to each other: for a nonzero element
    [a], [logtable[a]] is an index [x] below 255 with [exptable[x] == a];
    for an index [z] below 255, [exptable[z]] is a nonzero element whose
    entry in [logtable] is [z]; the last entry [exptable[255]] repeats
    [exptable[0]], which is 1. *)
Theorem tables_are_inverse :
  (forall a : GF256int, to_int a <> 0 ->
     exists x, py_index logtable (to_int a) = Ok (Some x) /\
               0 <= x < 255 /\
               py_index exptable x = Ok (to_int a)) /\
  (forall z : Z, 0 <= z < 255 ->
     exists v : GF256int,
       py_index exptable z = Ok (to_int v) /\
       to_int v <> 0 /\
       py_index logtable (to_int v) = Ok (Some z)) /\
  py_index exptable 255 = Ok 1 /\
  py_index exptable 0 = Ok 1 /\
  length exptable = 256%nat /\
  length logtable = 256%nat.
Proof.
  split; [apply log_exp|]. split; [apply exp_log|]. by repeat split.
Qed.

(** The theorem at the element 255 and at the index 7. *)
Lemma tables_are_inverse_at_255 :
  (to_int (element 255) <> 0 /\
   exists x, py_index logtable (to_int (element 255)) = Ok (Some x) /\
             0 <= x < 255 /\
             py_index exptable x = Ok (to_int (element 255))) /\
  (0 <= 7 < 255 /\
   exists v : GF256int,
     py_index exptable 7 = Ok (to_int v) /\
     to_int v <> 0 /\
     py_index logtable (to_int v) = Ok (Some 7)).
Proof.
  assert (H : to_int (element 255) <> 0) by (vm_compute; discriminate).
  assert (H7 : 0 <= 7 < 255) by lia.
  split.
  - split; [exact H|]. exact (proj1 tables_are_inverse (element 255) H).
  - split; [exact H7|]. exact (proj1 (proj2 tables_are_inverse) 7 H7).
Defined.

Lemma next_power_of_3_all (k : nat) : (k < 255)%nat -> next_power_of_3 k = true.
Proof.
  assert (H : forallb next_power_of_3 (seq 0 255) = true) by (vm_compute; reflexivity).
  rewrite forallb_forall in H. intros Hk. apply H, in_seq. lia.
Qed.

(** X8. [exptable] is the table of the powers of the generator 3 under
    the reference multiplication: it starts with 1, and each entry up to
    index 255 is [multiply] of the entry before it by 3. *)
Theorem exptable_is_generated_by_3 (k : Z) (fuel : nat) :
  0 <= k < 255 ->
  py_index exptable 0 = Ok 1 /\
  exists v v' : GF256int,
    py_index exptable k = Ok (to_int v) /\
    py_index exptable (k + 1) = Ok (to_int v') /\
    GF256int_multiply (8 + fuel) v (element 3) = Some (Ok v').
Proof.
  intros Hk. split; [done|].
  pose proof (next_power_of_3_all (Z.to_nat k) ltac:(lia)) as H.
  unfold next_power_of_3 in H. rewrite Z2Nat.id in H by lia.
  destruct (exptable_entry k ltac:(lia)) as (v & Hv).
  destruct (exptable_entry (k + 1) ltac:(lia)) as (v' & Hv').
  rewrite Hv, Hv' in H.
  destruct (multiply_loop 8 (to_int v) 0 3) as [r|] eqn:Hr; [|done].
  apply Z.eqb_eq in H. subst r.
  exists v, v'. split; [done|]. split; [done|].
  unfold GF256int_multiply. change (to_int (element 3)) with 3.
  rewrite (multiply_loop_more_fuel fuel 8 _ _ _ _ Hr). simpl.
  by rewrite GF256int_new_to_int.
Qed.

(** The theorem at index 254, the step that closes the cycle. *)
Lemma exptable_is_generated_by_3_at_254 :
  0 <= 254 < 255 /\
  py_index exptable 0 = Ok 1 /\
  exists v v' : GF256int,
    py_index exptable 254 = Ok (to_int v) /\
    py_index exptable (254 + 1) = Ok (to_int v') /\
    GF256int_multiply (8 + 0) v (element 3) = Some (Ok v').
Proof.
  assert (H : 0 <= 254 < 255) by lia.
  split; [exact H | exact (exptable_is_generated_by_3 254 0 H)].
Defined.

(** ** The loop of [multiply] *)

(** X9. The loop of [multiply] ends within [n] rounds on every multiplier
    [b] with [0 <= b < 2^n], whatever the other operand; on a negative
    multiplier it never ends, since [b >> 1] stays negative. *)
Theorem multiply_loop_terminates_iff_nonnegative (fuel : nat) (p r b : Z) :
  (0 <= b < 2 ^ Z.of_nat fuel -> exists v, multiply_loop fuel p r b = Some v) /\
  (b < 0 -> multiply_loop fuel p r b = None).
Proof.
  revert p r b. induction fuel as [|fuel IH]; intros p r b; split.
  - intros Hb. assert (b = 0) as -> by (simpl in Hb; lia). by exists r.
  - intros Hb. simpl. by destruct (Z.eqb_spec b 0); [lia|].
  - intros Hb. destruct (decide (b = 0)) as [->|Hb0]; [by exists r|].
    rewrite multiply_loop_step by done. apply IH.
    rewrite Z.shiftr_div_pow2 by lia. change (2 ^ 1) with 2.
    rewrite Nat2Z.inj_succ, Z.pow_succ_r in Hb by lia.
    split; [apply Z.div_pos; lia|]. apply Z.div_lt_upper_bound; lia.
  - intros Hb. rewrite multiply_loop_step by lia. apply IH.
    by apply Z.shiftr_neg.
Qed.

(** The theorem with eight rounds on the multiplier 255, and on -1. *)
Lemma multiply_loop_terminates_iff_nonnegative_on_examples :
  (0 <= 255 < 2 ^ Z.of_nat 8 /\ exists v, multiply_loop 8 7 0 255 = Some v) /\
  (-1 < 0 /\ multiply_loop 8 7 0 (-1) = None).
Proof.
  assert (H1 : 0 <= 255 < 2 ^ Z.of_nat 8) by (simpl; lia).
  assert (H2 : -1 < 0) by lia.
  split.
  - split; [exact H1|]. exact (proj1 (multiply_loop_terminates_iff_nonnegative 8 7 0 255) H1).
  - split; [exact H2|]. exact (proj2 (multiply_loop_terminates_iff_nonnegative 8 7 0 (-1)) H2).
Defined.

(** ** Further lemmas on polynomials *)

(** ** Addition of polynomials *)

Section AddLaws.

Context {R : Type} `{CoeffLaws R}.






End AddLaws.


(** ** The ring laws on the two coefficient types *)

Global Instance int_ring : CoeffRing Z.
Proof. split; simpl; intros; lia. Qed.

Global Instance GF256int_ring : CoeffRing GF256int.
Proof.
  split.
  - apply GF_mul_comm.
  - apply GF_mul_assoc.
  - apply GF_mul_one_r.
  - apply GF_mul_add_r.
  - done.
  - intros a. apply GF256int_eq. rewrite to_int_add. apply Z.lxor_nilpotent.
  - intros a b Ha Hb E. apply (f_equal to_int) in E.
    apply to_int_mul_zero in E as [E|E]; [apply Ha|apply Hb]; by apply GF256int_eq.
  - done.
Qed.

Section RingLaws.

Context {R : Type} `{CoeffRing R}.

Lemma coeff_ring_theory : ring_theory (zero : R) one add mul sub neg eq.
Proof.
  constructor.
  - apply add_zero_l.
  - apply add_comm.
  - apply add_assoc.
  - intros x. by rewrite mul_comm, mul_one_r.
  - apply mul_comm.
  - apply mul_assoc.
  - intros x y z. by rewrite (mul_comm (add x y)), mul_add_r, !(mul_comm z).
  - apply sub_neg.
  - apply add_neg.
Qed.

Add Ring coeff_ring : coeff_ring_theory.

Lemma mul_zero_r (a : R) : mul a zero = zero.
Proof. ring. Qed.

Lemma neg_zero : neg (zero : R) = zero.
Proof. ring. Qed.

Lemma expunge_map_neg (l : list R) : expunge (map neg l) = map neg (expunge l).
Proof.
  induction l as [|x l IH]; [done|]. simpl.
  destruct (decide (x = zero)) as [->|Hx].
  - rewrite neg_zero. by rewrite decide_True.
  - rewrite decide_False; [done|]. intros E. apply Hx.
    assert (x = neg (neg x)) as -> by ring. rewrite E. ring.
Qed.








End RingLaws.


(** X12. Over GF(256) every polynomial is its own opposite: [p + p] is
    the zero polynomial [(0,)], and [-p == p] for a normalized [p]. *)
Theorem Polynomial_add_self_is_zero (p : Polynomial GF256int) :
  Polynomial_add p p = MkPolynomial [GF0] /\
  (normalized p -> Polynomial_neg p = p).
Proof.
  split.
  - unfold Polynomial_add. rewrite Z.sub_diag.
    change (0 <? 0) with false. change (Z.to_nat (- 0)) with O.
    cbn [replicate app].
    assert (Hz : forall l : list GF256int,
               zip_with add l l = replicate (length l) GF0).
    { induction l as [|x l IH]; [done|]. cbn [zip_with length replicate].
      rewrite IH. f_equal.
      apply GF256int_eq. rewrite to_int_add. apply Z.lxor_nilpotent. }
    rewrite Hz. unfold init_dense.
    pose proof (expunge_replicate (R:=GF256int) (length (coefficients p)) []) as E.
    rewrite app_nil_r in E. change (@zero GF256int _) with GF0 in E.
    by rewrite E.
  - intros Hp. unfold Polynomial_neg.
    assert (map neg (coefficients p) = coefficients p) as ->.
    { rewrite <- (list_fmap_id (coefficients p)) at 2. by apply list_fmap_ext. }
    by apply normalized_eq.
Qed.

(** The theorem on [3x + 5]. *)
Lemma Polynomial_add_self_is_zero_on_example :
  let p := field_poly [3; 5] in
  normalized p /\
  Polynomial_add p p = MkPolynomial [GF0] /\
  Polynomial_neg p = p.
Proof.
  intros p.
  assert (Hp : normalized p) by (vm_compute; reflexivity).
  split; [exact Hp|].
  split; [exact (proj1 (Polynomial_add_self_is_zero p))|].
  exact (proj2 (Polynomial_add_self_is_zero p) Hp).
Defined.

(** ** Multiplication of polynomials *)

Section MulLaws.

Context {R : Type} `{CoeffRing R}.

Add Ring coeff_ring_mul : (coeff_ring_theory (R:=R)).

Lemma sum_to_shrink (n m : nat) (f : nat -> R) :
  (n <= m)%nat ->
  (forall i, (n <= i < m)%nat -> f i = zero) ->
  sum_to m f = sum_to n f.
Proof.
  intros Hnm Hf. induction m as [|m IH].
  - by replace n with O by lia.
  - destruct (decide (n = S m)) as [->|Hne]; [done|].
    simpl. rewrite IH by (try lia; intros; apply Hf; lia).
    rewrite Hf by lia. apply add_zero_r.
Qed.

Lemma sum_to_single (n j : nat) (f : nat -> R) :
  (j < n)%nat ->
  (forall i, (i < n)%nat -> i <> j -> f i = zero) ->
  sum_to n f = f j.
Proof.
  intros Hj Hf.
  rewrite (sum_to_shrink (S j) n) by (try lia; intros; apply Hf; lia).
  simpl. rewrite sum_to_zero by (intros; apply Hf; lia). apply add_zero_l.
Qed.

(** The entry [k] of [terms] in [__mul__] is the full convolution sum. *)
Lemma conv_sum_full (A B : list R) (k : nat) :
  sum_to (length A) (conv_term A B k)
  = sum_to (S k) (fun i => mul (at_index A i) (at_index B (k - i))).
Proof.
  rewrite (sum_to_shrink (Nat.min (length A) (S k)) (length A)).
  2: lia.
  2: { intros i Hi. unfold conv_term. by rewrite decide_False by lia. }
  rewrite (sum_to_shrink (Nat.min (length A) (S k)) (S k)).
  2: lia.
  2: { intros i Hi. rewrite (at_index_ge A i) by lia. ring. }
  apply sum_to_ext. intros i Hi. unfold conv_term.
  destruct (decide (i <= k < i + length B)%nat) as [Hin|Hout]; [done|].
  rewrite (at_index_ge B (k - i)) by lia. ring.
Qed.

Lemma normalized_power_coef_inj (p q : Polynomial R) :
  normalized p -> normalized q ->
  (forall k, power_coef (coefficients p) k = power_coef (coefficients q) k) ->
  p = q.
Proof.
  intros Hp Hq Hk.
  remember (Nat.max (length (coefficients p)) (length (coefficients q))) as n eqn:Hn.
  apply (normalized_pad_inj n); [done..|].
  apply list_eq_power_coef; [by rewrite !pad_length by lia|].
  intros k. by rewrite !power_coef_pad.
Qed.

Lemma product_coefficients (a b : Polynomial R) :
  exists prod,
    Polynomial_mul a b = Ok prod /\
    normalized prod /\
    forall k, power_coef (coefficients prod) k =
              sum_to (S k) (fun i => mul (power_coef (coefficients a) i)
                                         (power_coef (coefficients b) (k - i))).
Proof.
  destruct (Polynomial_mul_spec a b) as (terms & Hmul & Hlen & Hat).
  exists (init_dense (reverse terms)). split; [done|].
  split; [apply normalized_init_dense|]. intros k.
  rewrite power_coef_init_dense, power_coef_reverse, Hat.
  rewrite <- (length_reverse (coefficients a)). apply conv_sum_full.
Qed.

Lemma power_coef_singleton (x : R) (k : nat) :
  power_coef [x] k = if decide (k = O) then x else zero.
Proof. by destruct k. Qed.

Lemma normalized_length (p : Polynomial R) (n : nat) :
  normalized p ->
  power_coef (coefficients p) n <> zero ->
  (forall k, (n < k)%nat -> power_coef (coefficients p) k = zero) ->
  length (coefficients p) = S n.
Proof.
  intros Hp Hn Hk.
  assert (Hlt : (n < length (coefficients p))%nat).
  { destruct (decide (n < length (coefficients p))%nat); [done|].
    exfalso. apply Hn, power_coef_ge. lia. }
  destruct (normalized_cases p Hp) as [E|(x & l & E & Hx)].
  - rewrite E in *. simpl in Hlt. replace n with O in Hn by lia. done.
  - destruct (decide (length (coefficients p) = S n)) as [|Hne]; [done|].
    exfalso. apply Hx.
    specialize (Hk (length (coefficients p) - 1)%nat ltac:(lia)).
    rewrite power_coef_lt in Hk by lia.
    replace (length (coefficients p) - S (length (coefficients p) - 1))%nat
      with O in Hk by lia.
    rewrite E in Hk. done.
Qed.

Lemma power_coef_leading (p : Polynomial R) :
  normalized p -> coefficients p <> [zero] ->
  (1 <= length (coefficients p))%nat /\
  power_coef (coefficients p) (length (coefficients p) - 1) <> zero.
Proof.
  intros Hp Hz. destruct (normalized_cases p Hp) as [E|(x & l & E & Hx)]; [done|].
  split; [rewrite E; simpl; lia|].
  rewrite power_coef_lt by (rewrite E; simpl; lia).
  replace (length (coefficients p) - S (length (coefficients p) - 1))%nat
    with O by (rewrite E; simpl; lia).
  by rewrite E.
Qed.




Lemma product_degree (a b : Polynomial R) :
  normalized a -> normalized b ->
  coefficients a <> [zero] -> coefficients b <> [zero] ->
  exists prod,
    Polynomial_mul a b = Ok prod /\
    degree prod = degree a + degree b /\
    coefficients prod <> [zero].
Proof.
  intros Ha Hb Haz Hbz.
  destruct (power_coef_leading a Ha Haz) as [Hla Hta].
  destruct (power_coef_leading b Hb Hbz) as [Hlb Htb].
  destruct (product_coefficients a b) as (prod & Hmul & Hn & Hk).
  set (la := length (coefficients a)) in *.
  set (lb := length (coefficients b)) in *.
  assert (Htop : power_coef (coefficients prod) (la + lb - 2)
                 = mul (power_coef (coefficients a) (la - 1))
                       (power_coef (coefficients b) (lb - 1))).
  { rewrite Hk. rewrite (sum_to_single _ (la - 1)).
    - do 2 f_equal. lia.
    - lia.
    - intros i Hi Hne. destruct (decide (i < la - 1)%nat).
      + rewrite (power_coef_ge (coefficients b)) by (fold lb; lia). ring.
      + rewrite (power_coef_ge (coefficients a)) by (fold la; lia). ring. }
  assert (Hlen : length (coefficients prod) = S (la + lb - 2)).
  { apply normalized_length; [done| |].
    - rewrite Htop. by apply mul_nonzero.
    - intros k Hgt. rewrite Hk. apply sum_to_zero. intros i Hi.
      destruct (decide (i < la)%nat).
      + rewrite (power_coef_ge (coefficients b)) by (fold lb; lia). ring.
      + rewrite (power_coef_ge (coefficients a)) by (fold la; lia). ring. }
  exists prod. split; [done|]. split.
  - unfold degree, Polynomial_len. fold la lb. rewrite Hlen. lia.
  - intros E. rewrite E in Htop.
    assert (power_coef [zero : R] (la + lb - 2) = zero) as Ez
      by (rewrite power_coef_singleton; by destruct (decide _)).
    rewrite Ez in Htop. symmetry in Htop. revert Htop. by apply mul_nonzero.
Qed.

(** X15. Without zero divisors among the coefficients, the degree of a
    product of two normalized nonzero polynomials is the sum of their
    degrees, and the product is not the zero polynomial. *)
Theorem Polynomial_mul_degree (a b : Polynomial R) :
  normalized a -> normalized b ->
  coefficients a <> [zero] -> coefficients b <> [zero] ->
  exists prod,
    Polynomial_mul a b = Ok prod /\
    degree prod = degree a + degree b /\
    coefficients prod <> [zero].
Proof. apply product_degree. Qed.

End MulLaws.



(** The theorem on [3x + 5] and [x^2 + 200] over GF(256). *)
Lemma Polynomial_mul_degree_on_example :
  let a := field_poly [3; 5] in
  let b := field_poly [1; 0; 200] in
  normalized a /\ normalized b /\
  coefficients a <> [zero] /\ coefficients b <> [zero] /\
  exists prod,
    Polynomial_mul a b = Ok prod /\
    degree prod = degree a + degree b /\
    coefficients prod <> [zero].
Proof.
  intros a b.
  assert (Ha : normalized a) by (vm_compute; reflexivity).
  assert (Hb : normalized b) by (vm_compute; reflexivity).
  assert (Haz : coefficients a <> [zero]) by (vm_compute; discriminate).
  assert (Hbz : coefficients b <> [zero]) by (vm_compute; discriminate).
  split; [exact Ha|]. split; [exact Hb|]. split; [exact Haz|]. split; [exact Hbz|].
  exact (Polynomial_mul_degree a b Ha Hb Haz Hbz).
Defined.

(** ** Evaluation of polynomials *)

Section EvalLaws.

Context {R : Type} `{CoeffRing R}.

Add Ring coeff_ring_eval : (coeff_ring_theory (R:=R)).

(** The invariant of the loop of [evaluate]. *)
Lemma evaluate_loop_spec (terms : list R) (x : R) :
  forall c p, evaluate_loop terms x c p = add c (mul p (eval_low terms x)).
Proof.
  induction terms as [|t rest IH]; intros c p; simpl.
  - ring.
  - rewrite IH. ring.
Qed.

Lemma evaluate_eval_low (p : Polynomial R) (x : R) :
  Polynomial_evaluate p x = eval_low (reverse (coefficients p)) x.
Proof. unfold Polynomial_evaluate. rewrite evaluate_loop_spec. ring. Qed.

Lemma sum_to_S (n : nat) (f : nat -> R) :
  sum_to (S n) f = add (sum_to n f) (f n).
Proof. done. Qed.

Lemma sum_to_add (n : nat) (f g : nat -> R) :
  sum_to n (fun i => add (f i) (g i)) = add (sum_to n f) (sum_to n g).
Proof. induction n as [|n IH]; simpl; [ring|rewrite IH; ring]. Qed.

Lemma sum_to_scale (n : nat) (c : R) (f : nat -> R) :
  sum_to n (fun i => mul c (f i)) = mul c (sum_to n f).
Proof. induction n as [|n IH]; simpl; [ring|rewrite IH; ring]. Qed.

Lemma eval_low_sum (l : list R) (x : R) :
  eval_low l x = sum_to (length l) (fun i => mul (at_index l i) (xpow x i)).
Proof.
  induction l as [|t rest IH].
  - done.
  - cbn [eval_low length]. rewrite sum_to_first, IH, <- sum_to_scale.
    cbn [xpow]. change (at_index (t :: rest) O) with t.
    replace (mul t one) with t by ring. f_equal.
    apply sum_to_ext. intros i Hi.
    change (at_index (t :: rest) (S i)) with (at_index rest i). ring.
Qed.

Lemma evaluate_sum (p : Polynomial R) (x : R) (n : nat) :
  (length (coefficients p) <= n)%nat ->
  Polynomial_evaluate p x =
  sum_to n (fun i => mul (power_coef (coefficients p) i) (xpow x i)).
Proof.
  intros Hn. rewrite evaluate_eval_low, eval_low_sum, length_reverse.
  symmetry. apply sum_to_shrink; [done|].
  intros i Hi. rewrite at_index_ge by (rewrite length_reverse; lia). ring.
Qed.



Lemma xpow_add (x : R) (n m : nat) :
  xpow x (n + m) = mul (xpow x n) (xpow x m).
Proof. induction n as [|n IH]; simpl; [ring|rewrite IH; ring]. Qed.


Lemma power_coef_Polynomial_add (a b : Polynomial R) (k : nat) :
  power_coef (coefficients (Polynomial_add a b)) k
  = add (power_coef (coefficients a) k) (power_coef (coefficients b) k).
Proof.
  remember (Nat.max 1 (Nat.max (length (coefficients a)) (length (coefficients b))))
    as n eqn:Hn.
  rewrite <- (power_coef_pad n (coefficients (Polynomial_add a b))).
  rewrite pad_Polynomial_add by lia.
  rewrite power_coef_zip_add by (rewrite !pad_length; lia).
  by rewrite !power_coef_pad.
Qed.



(** The partial sums of a convolution, regrouped by the first factor. *)
Lemma cauchy_product (a b : nat -> R) (x : R) (n : nat) :
  sum_to n (fun k => mul (sum_to (S k) (fun i => mul (a i) (b (k - i)%nat))) (xpow x k))
  = sum_to n (fun i => mul (mul (a i) (xpow x i))
                           (sum_to (n - i) (fun j => mul (b j) (xpow x j)))).
Proof.
  induction n as [|n IH]; [done|].
  rewrite !sum_to_S, IH. clear IH.
  replace (S n - n)%nat with 1%nat by lia. rewrite sum_to_S, Nat.sub_diag.
  rewrite (sum_to_ext n
    (fun i => mul (mul (a i) (xpow x i))
                  (sum_to (S n - i) (fun j => mul (b j) (xpow x j))))
    (fun i => add (mul (mul (a i) (xpow x i))
                       (sum_to (n - i) (fun j => mul (b j) (xpow x j))))
                  (mul (mul (a i) (b (n - i)%nat)) (xpow x n)))).
  2: { intros i Hi. replace (S n - i)%nat with (S (n - i)) by lia. rewrite sum_to_S.
       replace (xpow x n) with (mul (xpow x i) (xpow x (n - i)))
         by (rewrite <- xpow_add; f_equal; lia).
       ring. }
  rewrite sum_to_add.
  rewrite (sum_to_ext n (fun i => mul (mul (a i) (b (n - i)%nat)) (xpow x n))
             (fun i => mul (xpow x n) (mul (a i) (b (n - i)%nat))))
    by (intros; ring).
  rewrite sum_to_scale. cbn [sum_to xpow]. ring.
Qed.

Lemma evaluate_product (a b prod : Polynomial R) (x : R) :
  Polynomial_mul a b = Ok prod ->
  Polynomial_evaluate prod x = mul (Polynomial_evaluate a x) (Polynomial_evaluate b x).
Proof.
  intros Hmul.
  destruct (product_coefficients a b) as (prod' & Hmul' & Hn & Hk).
  rewrite Hmul in Hmul'. injection Hmul' as <-.
  remember (length (coefficients prod) + length (coefficients a)
            + length (coefficients b))%nat as n eqn:En.
  rewrite (evaluate_sum prod x n) by lia.
  rewrite (sum_to_ext n _ _ (fun k _ => f_equal (fun c => mul c (xpow x k)) (Hk k))).
  rewrite cauchy_product.
  rewrite (sum_to_ext n _
    (fun i => mul (Polynomial_evaluate b x)
                  (mul (power_coef (coefficients a) i) (xpow x i)))).
  2: { intros i Hi. destruct (decide (i < length (coefficients a))%nat).
       - rewrite <- (evaluate_sum b x (n - i)) by lia. ring.
       - rewrite (power_coef_ge (coefficients a)) by lia. ring. }
  rewrite sum_to_scale, <- (evaluate_sum a x n) by lia. ring.
Qed.




Lemma evaluate_divmod (p d q r prod : Polynomial R) (x : R) :
  Polynomial_mul q d = Ok prod ->
  Polynomial_add prod r = p ->
  Polynomial_evaluate p x
  = add (mul (Polynomial_evaluate q x) (Polynomial_evaluate d x)) (Polynomial_evaluate r x).
Proof.
  intros Hmul <-.
  remember (length (coefficients (Polynomial_add prod r)) + length (coefficients prod)
            + length (coefficients r))%nat as n eqn:En.
  rewrite <- (evaluate_product q d prod x Hmul).
  rewrite (evaluate_sum _ x n), (evaluate_sum prod x n), (evaluate_sum r x n) by lia.
  rewrite <- sum_to_add. apply sum_to_ext. intros k Hk.
  rewrite power_coef_Polynomial_add. ring.
Qed.

End EvalLaws.




(** X19. Over GF(256), for a normalized dividend [p] and a normalized
    nonzero divisor [d], the values satisfy
    [p(x) = (p // d)(x) * d(x) + (p % d)(x)]; so at a root of [d] the
    dividend and the remainder have the same value. *)
Theorem Polynomial_evaluate_divmod (p d : Polynomial GF256int) :
  normalized p -> normalized d -> coefficients d <> [GF0] ->
  exists q r,
    Polynomial_divmod p d = Ok (q, r) /\
    forall x,
      Polynomial_evaluate p x
      = add (mul (Polynomial_evaluate q x) (Polynomial_evaluate d x))
            (Polynomial_evaluate r x) /\
      (Polynomial_evaluate d x = GF0 ->
       Polynomial_evaluate p x = Polynomial_evaluate r x).
Proof.
  intros Hp Hd Hz.
  destruct (divmod_exact p d Hp Hd Hz) as (q & r & prod & Hdiv & Hmul & Hadd & _).
  { intros lc Hlc. apply GF256int_quotient_exact.
    exact (normalized_head d lc Hd Hz Hlc). }
  exists q, r. split; [done|]. intros x.
  pose proof (evaluate_divmod p d q r prod x Hmul Hadd) as E.
  split; [done|]. intros Hroot. rewrite E, Hroot.
  rewrite (mul_comm _ GF0).
  change GF0 with (@zero GF256int _). rewrite mul_zero_l. apply add_zero_l.
Qed.

(** The theorem on [x^3 + 2x^2 + 3x + 4] by [x + 7], whose root is 7. *)
Lemma Polynomial_evaluate_divmod_on_example :
  let p := field_poly [1; 2; 3; 4] in
  let d := field_poly [1; 7] in
  normalized p /\ normalized d /\ coefficients d <> [GF0] /\
  Polynomial_evaluate d (element 7) = GF0 /\
  exists q r,
    Polynomial_divmod p d = Ok (q, r) /\
    forall x,
      Polynomial_evaluate p x
      = add (mul (Polynomial_evaluate q x) (Polynomial_evaluate d x))
            (Polynomial_evaluate r x) /\
      (Polynomial_evaluate d x = GF0 ->
       Polynomial_evaluate p x = Polynomial_evaluate r x).
Proof.
  intros p d.
  assert (Hp : normalized p) by (vm_compute; reflexivity).
  assert (Hd : normalized d) by (vm_compute; reflexivity).
  assert (Hz : coefficients d <> [GF0]) by (vm_compute; discriminate).
  split; [exact Hp|]. split; [exact Hd|]. split; [exact Hz|].
  split; [vm_compute; reflexivity|].
  exact (Polynomial_evaluate_divmod p d Hp Hd Hz).
Defined.

(** ** Coefficient access, construction and the shape of a division *)

Section Access.

Context {R : Type} `{CoeffLaws R}.

Lemma init_normalized (l : list R) (q : Polynomial R) :
  Polynomial_init l [] = Ok q -> normalized q.
Proof.
  destruct l as [|x l]; simpl; intros [= <-].
  - apply (normalized_init_dense []).
  - apply normalized_init_dense.
Qed.

Lemma divmod_normalized (p d q r : Polynomial R) :
  normalized p -> Polynomial_divmod p d = Ok (q, r) -> normalized q /\ normalized r.
Proof.
  intros Hp. unfold Polynomial_divmod.
  destruct (is_zero_tuple (coefficients d)); [done|].
  destruct (degree p <? degree d).
  - cbn [Polynomial_init mbind result_bind]. intros [= <- <-].
    split; [apply normalized_init_dense|done].
  - destruct (py_index (coefficients d) 0) as [lc|]; cbn [mbind result_bind]; [|done].
    destruct (divide_loop _ _ _ _ _) as [[Q Rm]|]; cbn [mbind result_bind]; [|done].
    destruct (Polynomial_init (strip_leading Q) []) as [q'|] eqn:E1;
      cbn [mbind result_bind]; [|done].
    destruct (Polynomial_init _ []) as [r'|] eqn:E2 in |- *;
      cbn [mbind result_bind]; [|done].
    intros [= <- <-]. split; eapply init_normalized; eauto.
Qed.

(** X20. [get_coefficient] on a non-negative degree never raises and
    returns the coefficient of that power, 0 above the degree of the
    polynomial.  A negative argument [k] is not refused: it reads
    [coefficients[-(k+1)]], counted from the highest power, and raises
    IndexError below [-len]. *)
Theorem get_coefficient_cases (p : Polynomial R) (k : Z) :
  (0 <= k ->
   Polynomial_get_coefficient p k = Ok (power_coef (coefficients p) (Z.to_nat k))) /\
  (- Polynomial_len p <= k < 0 ->
   Polynomial_get_coefficient p k = Ok (at_index (coefficients p) (Z.to_nat (- k - 1)))) /\
  (k < - Polynomial_len p ->
   Polynomial_get_coefficient p k = Raise IndexError).
Proof.
  unfold Polynomial_get_coefficient, degree, Polynomial_len.
  set (l := coefficients p). set (n := length l).
  split; [|split].
  - intros Hk. destruct (Z.of_nat n - 1 <? k) eqn:Hd.
    + apply Z.ltb_lt in Hd. rewrite power_coef_ge by (fold n; lia). done.
    + apply Z.ltb_ge in Hd. unfold py_index. fold n.
      replace (- (k + 1) <? 0) with true by (symmetry; apply Z.ltb_lt; lia).
      replace (- (k + 1) + Z.of_nat n <? 0) with false by (symmetry; apply Z.ltb_ge; lia).
      replace (Z.of_nat n <=? - (k + 1) + Z.of_nat n) with false
        by (symmetry; apply Z.leb_gt; lia).
      cbn [orb]. rewrite power_coef_lt by (fold n; lia). fold n.
      replace (Z.to_nat (- (k + 1) + Z.of_nat n)) with (n - S (Z.to_nat k))%nat by lia.
      rewrite (lookup_at_index l) by (fold n; lia). done.
  - intros Hk.
    replace (Z.of_nat n - 1 <? k) with false by (symmetry; apply Z.ltb_ge; lia).
    unfold py_index. fold n.
    replace (- (k + 1) <? 0) with false by (symmetry; apply Z.ltb_ge; lia).
    replace (- (k + 1) <? 0) with false by (symmetry; apply Z.ltb_ge; lia).
    replace (Z.of_nat n <=? - (k + 1)) with false by (symmetry; apply Z.leb_gt; lia).
    cbn [orb]. replace (- (k + 1)) with (- k - 1) by lia.
    rewrite (lookup_at_index l) by (fold n; lia). done.
  - intros Hk.
    replace (Z.of_nat n - 1 <? k) with false by (symmetry; apply Z.ltb_ge; lia).
    unfold py_index. fold n.
    replace (- (k + 1) <? 0) with false by (symmetry; apply Z.ltb_ge; lia).
    replace (Z.of_nat n <=? - (k + 1)) with true by (symmetry; apply Z.leb_le; lia).
    by rewrite orb_true_r.
Qed.

(** X21. The dense constructor on a non-empty list keeps the coefficient
    of every power, never returns a longer list, and returns a normalized
    polynomial: constructing again from its coefficients gives it back.
    Only zeros are removed, and only from the front. *)
Theorem dense_construction_keeps_coefficients (l : list R) :
  l <> [] ->
  exists p zeros,
    Polynomial_init l [] = Ok p /\
    Polynomial_init (coefficients p) [] = Ok p /\
    (forall k, power_coef (coefficients p) k = power_coef l k) /\
    (l = replicate zeros zero ++ coefficients p \/
     (l = replicate zeros zero /\ coefficients p = [zero])).
Proof.
  intros Hl. destruct (expunge_prefix l) as [k Hk].
  exists (init_dense l), k. split; [by apply init_list|].
  split; [apply normalized_init_dense|].
  split; [apply power_coef_init_dense|].
  unfold init_dense. destruct (expunge l) as [|x e]; simpl.
  - right. by rewrite app_nil_r in Hk.
  - by left.
Qed.

End Access.

(** The theorem on [2x^2 + 3] over the integers, at the degrees 2 and -1. *)
Lemma get_coefficient_cases_on_example :
  let p : Polynomial Z := MkPolynomial [2; 0; 3] in
  Polynomial_get_coefficient p 2 = Ok (power_coef (coefficients p) 2) /\
  Polynomial_get_coefficient p (-1) = Ok (at_index (coefficients p) 0) /\
  Polynomial_get_coefficient p (-4) = Raise IndexError.
Proof.
  intros p.
  split; [|split].
  - apply (proj1 (get_coefficient_cases p 2)). lia.
  - apply (proj1 (proj2 (get_coefficient_cases p (-1)))). vm_compute. split; [discriminate|reflexivity].
  - apply (proj2 (proj2 (get_coefficient_cases p (-4)))). vm_compute. reflexivity.
Defined.

(** The theorem on the list [0, 0, 5, 0, 1] over the integers. *)
Lemma dense_construction_keeps_coefficients_on_example :
  let l : list Z := [0; 0; 5; 0; 1] in
  l <> [] /\
  exists p zeros,
    Polynomial_init l [] = Ok p /\
    Polynomial_init (coefficients p) [] = Ok p /\
    (forall k, power_coef (coefficients p) k = power_coef l k) /\
    (l = replicate zeros zero ++ coefficients p \/
     (l = replicate zeros zero /\ coefficients p = [zero])).
Proof.
  intros l.
  assert (Hl : l <> []) by discriminate.
  split; [exact Hl|]. exact (dense_construction_keeps_coefficients l Hl).
Defined.

(** ** The shape of a division, equality and the sparse constructor *)

Section DivisionShape.

Context {R : Type} `{CoeffRing R}.

Add Ring coeff_ring_div : (coeff_ring_theory (R:=R)).

Lemma power_coef_zero_poly (k : nat) : power_coef [zero : R] k = zero.
Proof. rewrite power_coef_singleton. by destruct (decide _). Qed.


Lemma normalized_nonempty (p : Polynomial R) :
  normalized p -> (1 <= length (coefficients p))%nat.
Proof.
  intros Hp. destruct (normalized_cases p Hp) as [E|(x & l & E & _)];
    rewrite E; simpl; lia.
Qed.

(** The degree of the quotient, from the equation [p = q * d + r] with a
    remainder below the divisor. *)
Lemma quotient_degree (p d q r prod : Polynomial R) :
  normalized p -> normalized d -> normalized q -> normalized r ->
  coefficients d <> [zero] ->
  Polynomial_mul q d = Ok prod ->
  Polynomial_add prod r = p ->
  (1 <= degree d -> degree r < degree d) ->
  (degree d = 0 -> r = MkPolynomial [zero]) ->
  degree d <= degree p ->
  degree q = degree p - degree d.
Proof.
  intros Hp Hd Hq Hr Hdz Hmul Hadd Hr1 Hr0 Hle.
  pose proof (normalized_nonempty p Hp) as Hlp.
  pose proof (normalized_nonempty d Hd) as Hld.
  pose proof (normalized_nonempty q Hq) as Hlq.
  pose proof (normalized_nonempty r Hr) as Hlr.
  assert (Hpk : forall k, power_coef (coefficients p) k
                = add (power_coef (coefficients prod) k) (power_coef (coefficients r) k)).
  { intros k. rewrite <- Hadd. apply power_coef_Polynomial_add. }
  unfold degree, Polynomial_len in *.
  destruct (decide (coefficients q = [zero])) as [Eq|Hqz].
  - (* a zero quotient: the dividend is the remainder *)
    destruct (product_coefficients q d) as (prod' & Hmul' & _ & Hk).
    rewrite Hmul in Hmul'. injection Hmul' as <-.
    assert (p = r) as ->.
    { apply normalized_power_coef_inj; [done..|]. intros k.
      rewrite Hpk, Hk, sum_to_zero; [ring|].
      intros i Hi. rewrite Eq, power_coef_zero_poly. ring. }
    destruct (decide (length (coefficients d) = 1%nat)) as [E1|E1].
    + rewrite Hr0 by lia. rewrite Eq, E1. simpl. lia.
    + lia.
  - destruct (product_degree q d Hq Hd Hqz Hdz) as (prod' & Hmul' & Hdeg & Hpz).
    rewrite Hmul in Hmul'. injection Hmul' as <-.
    unfold degree, Polynomial_len in Hdeg.
    assert (Hnp : normalized prod).
    { destruct (product_coefficients q d) as (prod' & Hmul' & Hn & _).
      rewrite Hmul in Hmul'. by injection Hmul' as <-. }
    destruct (power_coef_leading prod Hnp Hpz) as [Hl1 Htop].
    assert (Hrk : forall k, (length (coefficients prod) - 1 <= k)%nat ->
                            power_coef (coefficients r) k = zero).
    { intros k Hk. destruct (decide (length (coefficients d) = 1%nat)) as [E1|E1].
      - rewrite Hr0 by lia. apply power_coef_zero_poly.
      - apply power_coef_ge. lia. }
    assert (Hlen : length (coefficients p) = S (length (coefficients prod) - 1)).
    { apply normalized_length; [done| |].
      - rewrite Hpk, Hrk by lia. by rewrite add_zero_r.
      - intros k Hk. rewrite Hpk, Hrk by lia.
        rewrite power_coef_ge by lia. ring. }
    lia.
Qed.


End DivisionShape.


(** X23. The shape of a division over GF(256), for a normalized dividend
    [p] and a normalized nonzero divisor [d]: quotient and remainder are
    normalized; when [d] is not longer than [p] the degree of the quotient
    is [degree p - degree d]; when [d] is longer the quotient is [(0,)]
    and the remainder is [p] itself. *)
Theorem divmod_shape (p d : Polynomial GF256int) :
  normalized p -> normalized d -> coefficients d <> [GF0] ->
  exists q r,
    Polynomial_divmod p d = Ok (q, r) /\
    normalized q /\ normalized r /\
    (degree d <= degree p -> degree q = degree p - degree d) /\
    (degree p < degree d -> q = MkPolynomial [GF0] /\ r = p).
Proof.
  intros Hp Hd Hz.
  destruct (divmod_exact p d Hp Hd Hz) as (q & r & prod & Hdiv & Hmul & Hadd & Hr1 & Hr0).
  { intros lc Hlc. apply GF256int_quotient_exact.
    exact (normalized_head d lc Hd Hz Hlc). }
  destruct (divmod_normalized p d q r Hp Hdiv) as [Hq Hr].
  exists q, r. split; [done|]. split; [done|]. split; [done|]. split.
  - intros Hle. by apply (quotient_degree p d q r prod).
  - intros Hlt. revert Hdiv. unfold Polynomial_divmod.
    rewrite is_zero_tuple_false by done.
    replace (degree p <? degree d) with true by (symmetry; by apply Z.ltb_lt).
    cbn [Polynomial_init mbind result_bind]. intros [= <- <-]. split; [|done].
    vm_compute. reflexivity.
Qed.

(** The theorem on [x^3 + 2x^2 + 3x + 4] by [3x + 7]. *)
Lemma divmod_shape_on_example :
  let p := field_poly [1; 2; 3; 4] in
  let d := field_poly [3; 7] in
  normalized p /\ normalized d /\ coefficients d <> [GF0] /\
  exists q r,
    Polynomial_divmod p d = Ok (q, r) /\
    normalized q /\ normalized r /\
    (degree d <= degree p -> degree q = degree p - degree d) /\
    (degree p < degree d -> q = MkPolynomial [GF0] /\ r = p).
Proof.
  intros p d.
  assert (Hp : normalized p) by (vm_compute; reflexivity).
  assert (Hd : normalized d) by (vm_compute; reflexivity).
  assert (Hz : coefficients d <> [GF0]) by (vm_compute; discriminate).
  split; [exact Hp|]. split; [exact Hd|]. split; [exact Hz|].
  exact (divmod_shape p d Hp Hd Hz).
Defined.

(** X24. Over GF(256) and on normalized polynomials, [divmod], [//] and
    [%] raise exactly when the divisor is the zero polynomial [(0,)], and
    then it is ZeroDivisionError. *)
Theorem divmod_raises_only_on_zero_divisor (p d : Polynomial GF256int) :
  normalized p -> normalized d ->
  (coefficients d = [GF0] ->
   Polynomial_divmod p d = Raise ZeroDivisionError /\
   Polynomial_floordiv p d = Raise ZeroDivisionError /\
   Polynomial_mod p d = Raise ZeroDivisionError) /\
  (forall e, Polynomial_divmod p d = Raise e \/
             Polynomial_floordiv p d = Raise e \/
             Polynomial_mod p d = Raise e ->
             e = ZeroDivisionError /\ coefficients d = [GF0]).
Proof.
  intros Hp Hd. split.
  - intros E.
    assert (Hz : is_zero_tuple (coefficients d) = true) by (by rewrite E).
    unfold Polynomial_floordiv, Polynomial_mod, Polynomial_divmod.
    by rewrite Hz.
  - intros e He. destruct (decide (coefficients d = [GF0])) as [E|Hz].
    + split; [|done]. revert He.
      assert (Hz : is_zero_tuple (coefficients d) = true) by (by rewrite E).
      unfold Polynomial_floordiv, Polynomial_mod, Polynomial_divmod.
      rewrite Hz. cbn [fmap result_fmap].
      intros [He|[He|He]]; congruence.
    + exfalso.
      destruct (divmod_exact p d Hp Hd Hz) as (q & r & prod & Hdiv & _).
      { intros lc Hlc. apply GF256int_quotient_exact.
        exact (normalized_head d lc Hd Hz Hlc). }
      destruct (divmod_parts _ _ _ _ Hdiv) as [Hq Hr].
      destruct He as [He|[He|He]]; congruence.
Qed.

(** The theorem on [3x + 5] and the zero polynomial. *)
Lemma divmod_raises_only_on_zero_divisor_on_example :
  let p := field_poly [3; 5] in
  let d : Polynomial GF256int := MkPolynomial [GF0] in
  normalized p /\ normalized d /\
  Polynomial_divmod p d = Raise ZeroDivisionError /\
  Polynomial_floordiv p d = Raise ZeroDivisionError /\
  Polynomial_mod p d = Raise ZeroDivisionError.
Proof.
  intros p d.
  assert (Hp : normalized p) by (vm_compute; reflexivity).
  assert (Hd : normalized d) by (vm_compute; reflexivity).
  split; [exact Hp|]. split; [exact Hd|].
  exact (proj1 (divmod_raises_only_on_zero_divisor p d Hp Hd) eq_refl).
Defined.

(** ** The sparse constructor *)

Section Sparse.

Context {R : Type} `{CoeffLaws R}.



End Sparse.

